(** * progresscafe: key codec, update grammar, update compiler, state reader
    and key enumerator of [src/store.rs], embedded in Rocq. *)

From Stdlib Require Import ZArith Ascii String List Bool Lia Sorted.
From stdpp Require Import base gmap strings list.
Import ListNotations.

Open Scope string_scope.

(** ** Outcomes of Rust code

    [anyhow::Result] errors are recorded by kind; a Rust panic (an
    out-of-bounds index or a failed [assert!]) is a separate outcome,
    since it is not an [Err] the caller can inspect. *)

Inductive error :=
| InvalidCharset   (* check_string failed *)
| BadStructure     (* from_redis_key: first segment is not "pcafe" *)
| InvalidNumber    (* str::parse::<i64> failed *)
| StoreError       (* redis transport failure *)
| TypeError.       (* FromRedisValue conversion failure *)

Inductive outcome (A : Type) :=
| Ok (a : A)
| Err (e : error)
| Panic.
Arguments Ok {A} a.
Arguments Err {A} e.
Arguments Panic {A}.

(** The [?] operator. *)
Definition bind {A B} (m : outcome A) (f : A -> outcome B) : outcome B :=
  match m with
  | Ok a => f a
  | Err e => Err e
  | Panic => Panic
  end.

Notation "'let!' x := m 'in' k" := (bind m (fun x => k))
  (at level 200, x name, m at level 100, k at level 200).

(** [Iterator<Item = Result<T>>::collect::<Result<Vec<T>>>]: the first
    error wins. *)
Fixpoint collect {A} (l : list (outcome A)) : outcome (list A) :=
  match l with
  | [] => Ok []
  | x :: t => let! a := x in let! r := collect t in Ok (a :: r)
  end.

(** ** Strings

    Rust strings are modelled as [string] (byte strings). *)

Definition is_ascii_alphanumeric (c : ascii) : bool :=
  let n := nat_of_ascii c in
  (Nat.leb 48 n && Nat.leb n 57) || (Nat.leb 65 n && Nat.leb n 90)
  || (Nat.leb 97 n && Nat.leb n 122).

Fixpoint str_all (p : ascii -> bool) (s : string) : bool :=
  match s with
  | EmptyString => true
  | String c s' => p c && str_all p s'
  end.

Definition colon : ascii := ":".

(** [str.split(":")]: always at least one piece. *)
Fixpoint split_colon (s : string) : list string :=
  match s with
  | EmptyString => [EmptyString]
  | String c s' =>
      let rest := split_colon s' in
      if Ascii.eqb c colon then EmptyString :: rest
      else match rest with
           | h :: t => String c h :: t
           | [] => [String c EmptyString]
           end
  end.

(** [slice.join(sep)]. *)
Fixpoint join (sep : string) (l : list string) : string :=
  match l with
  | [] => EmptyString
  | [x] => x
  | x :: t => x ++ sep ++ join sep t
  end.

(** [str.split_once(d)]: split at the first occurrence of [d]. *)
Fixpoint split_once (d : ascii) (s : string) : option (string * string) :=
  match s with
  | EmptyString => None
  | String c s' =>
      if Ascii.eqb c d then Some (EmptyString, s')
      else match split_once d s' with
           | Some (a, b) => Some (String c a, b)
           | None => None
           end
  end.

(** [str.contains(c)]. *)
Definition contains (d : ascii) (s : string) : bool :=
  negb (str_all (fun c => negb (Ascii.eqb c d)) s).

Definition ascii_to_lower (c : ascii) : ascii :=
  let n := nat_of_ascii c in
  if Nat.leb 65 n && Nat.leb n 90 then ascii_of_nat (n + 32) else c.

(** [str.to_ascii_lowercase()]. *)
Fixpoint to_ascii_lowercase (s : string) : string :=
  match s with
  | EmptyString => EmptyString
  | String c s' => String (ascii_to_lower c) (to_ascii_lowercase s')
  end.

(** ** [check_string] (store.rs 10-20) *)

Definition check_char (c : ascii) : bool :=
  is_ascii_alphanumeric c || Ascii.eqb c "_" || Ascii.eqb c "-" || Ascii.eqb c ".".

Definition check_string (s : string) : outcome string :=
  if str_all check_char s then Ok s else Err InvalidCharset.

(** ** [i64::from_str] and [parse_i64_or_null] (store.rs 22-28) *)

Definition i64_min : Z := (- 2 ^ 63)%Z.
Definition i64_max : Z := (2 ^ 63 - 1)%Z.

Definition digit_value (c : ascii) : option Z :=
  let n := nat_of_ascii c in
  if Nat.leb 48 n && Nat.leb n 57 then Some (Z.of_nat (n - 48)) else None.

(** Digits read left to right into an accumulator. *)
Fixpoint parse_digits (acc : Z) (s : string) : option Z :=
  match s with
  | EmptyString => Some acc
  | String c s' =>
      match digit_value c with
      | Some d => parse_digits (acc * 10 + d)%Z s'
      | None => None
      end
  end.

(** [s.parse::<i64>()]: an optional leading [+] or [-], then at least one
    decimal digit, the value within the i64 range. *)
Definition parse_i64 (s : string) : option Z :=
  let signed :=
    match s with
    | EmptyString => None
    | String "+" EmptyString | String "-" EmptyString => None
    | String "+" r => Some (1%Z, r)
    | String "-" r => Some ((-1)%Z, r)
    | r => Some (1%Z, r)
    end in
  match signed with
  | None => None
  | Some (sg, r) =>
      match parse_digits 0 r with
      | Some v =>
          let z := (sg * v)%Z in
          if (i64_min <=? z)%Z && (z <=? i64_max)%Z then Some z else None
      | None => None
      end
  end.

Definition parse_i64_or_null (s : string) : outcome (option Z) :=
  if String.eqb (to_ascii_lowercase s) "null" then Ok None
  else match parse_i64 s with
       | Some z => Ok (Some z)
       | None => Err InvalidNumber
       end.

(** ** [Key] (store.rs 32-76) *)

Record Key := mkKey { token : string; key : string }.

Global Instance Key_eq_dec : EqDecision Key.
Proof. solve_decision. Defined.

Global Instance Key_countable : Countable Key.
Proof.
  refine (inj_countable' (fun k => (token k, key k)) (fun p => mkKey p.1 p.2) _).
  by intros [].
Defined.

(** [impl TryFrom<(S1, S2)> for Key]: only the token is checked. *)
Definition key_try_from (p : string * string) : outcome Key :=
  let '(tok, k) := p in
  let! _ := check_string tok in
  Ok (mkKey tok k).

(** [Key::redis_key]: [assert!] on the param, then the format string. *)
Definition redis_key (k : Key) (param : string) : outcome string :=
  if contains colon param then Panic
  else Ok ("pcafe:" ++ token k ++ ":" ++ key k ++ ":" ++ param).

(** [Key::redis_key_pattern]. *)
Definition redis_key_pattern (k : Key) : string :=
  "pcafe:" ++ token k ++ ":" ++ key k ++ "*".

(** [v[i]] on a [Vec]: panics out of bounds. *)
Definition index {A} (v : list A) (i : nat) : outcome A :=
  match nth_error v i with
  | Some x => Ok x
  | None => Panic
  end.

(** [&v[a..b]]: panics unless [a <= b <= v.len()]. *)
Definition slice {A} (v : list A) (a b : nat) : outcome (list A) :=
  if Nat.leb a b && Nat.leb b (length v) then Ok (firstn (b - a) (skipn a v))
  else Panic.

(** [Key::from_redis_key]: the three parts of the scrutinee tuple are
    evaluated (left to right) before the match. *)
Definition from_redis_key (redis_key : string) : outcome Key :=
  let! v := collect (map check_string (split_colon redis_key)) in
  let! v0 := index v 0 in
  let! v1 := index v 1 in
  let! mid := slice v 2 (length v - 1) in
  if String.eqb v0 "pcafe" then Ok (mkKey v1 (join ":" mid))
  else Err BadStructure.

(** ** [Update] (store.rs 78-154) *)

Record Update := mkUpdate {
  ukey : Key;
  state : option string;
  current : option (option Z);
  max : option (option Z)
}.

Record Value := mkValue {
  vstate : option string;
  vcurrent : option Z;
  vmax : option Z
}.

Definition EXPIRE_SECONDS : Z := (60 * 60 * 4)%Z.

(** Redis arguments and commands built by [as_cmd]. *)
Inductive Arg := ArgStr (s : string) | ArgInt (z : Z).

Inductive Cmd :=
| SetEx (k : string) (v : Arg) (ttl : Z)
| Del (k : string).

(** [Update::as_cmd]: outer [None] is no command, [Some None] a delete,
    [Some (Some v)] a [SETEX]. The key is built first in every case. *)
Definition as_cmd (u : Update) (param : string) (val : option (option Arg))
  : outcome (option Cmd) :=
  let! k := redis_key (ukey u) param in
  Ok (match val with
      | None => None
      | Some (Some v) => Some (SetEx k v EXPIRE_SECONDS)
      | Some None => Some (Del k)
      end).

(** [Update::as_cmds]: the label is passed as [&Some(self.state.as_ref())]. *)
Definition as_cmds (u : Update) : outcome (list Cmd) :=
  let! c1 := as_cmd u "state" (Some (option_map ArgStr (state u))) in
  let! c2 := as_cmd u "current" (option_map (option_map ArgInt) (current u)) in
  let! c3 := as_cmd u "max" (option_map (option_map ArgInt) (max u)) in
  Ok (concat (map option_list [c1; c2; c3])).

(** [Update::from_query]. *)
Definition from_query (tok : string) (q : string * string) : outcome Update :=
  let '(k, val) := q in
  let! sr :=
    match split_once "!" val with
    | Some (st, rest) => let! st := check_string st in Ok (Some st, rest)
    | None => Ok (None, val)
    end in
  let '(st, rest) := sr in
  let! cm :=
    match split_once "/" rest with
    | Some (c, m) => let! mv := parse_i64_or_null m in Ok (c, Some mv)
    | None => Ok (rest, None)
    end in
  let '(c, mx) := cm in
  let! cur :=
    if String.eqb c "" then Ok None
    else let! cv := parse_i64_or_null c in Ok (Some cv) in
  let! kk := key_try_from (tok, k) in
  Ok (mkUpdate kk st cur mx).

(** ** [Store] (store.rs 156-201)

    The redis connection answers a [GET] with [None] when the command fails
    (a transport failure or an error reply such as [WRONGTYPE]), [Some None]
    for a nil reply and [Some (Some bytes)] for a bulk string, each byte an
    [ascii]; a [SCAN MATCH] with [None] on a failure or the keys it
    returned. *)

Definition Redis := string -> option (option string).
Definition Scan := string -> option (list string).

Definition in_range (lo hi : nat) (c : ascii) : bool :=
  Nat.leb lo (nat_of_ascii c) && Nat.leb (nat_of_ascii c) hi.

(** A continuation byte [10xxxxxx]. *)
Definition utf8_cont (c : ascii) : bool := in_range 128 191 c.

(** The second byte of a three- or four-byte sequence: no overlong form,
    no surrogate, nothing above U+10FFFF. *)
Definition utf8_second (b1 c : ascii) : bool :=
  match nat_of_ascii b1 with
  | 224 => in_range 160 191 c
  | 237 => in_range 128 159 c
  | 240 => in_range 144 191 c
  | 244 => in_range 128 143 c
  | _ => utf8_cont c
  end.

(** [std::str::from_utf8] succeeds: the bytes are well-formed UTF-8. *)
Fixpoint utf8_valid (s : string) : bool :=
  match s with
  | EmptyString => true
  | String c1 r =>
      if Nat.ltb (nat_of_ascii c1) 128 then utf8_valid r
      else match r with
           | EmptyString => false
           | String c2 r2 =>
               if in_range 194 223 c1 then utf8_cont c2 && utf8_valid r2
               else if in_range 224 239 c1 then
                 match r2 with
                 | String c3 r3 => utf8_second c1 c2 && utf8_cont c3 && utf8_valid r3
                 | EmptyString => false
                 end
               else if in_range 240 244 c1 then
                 match r2 with
                 | String c3 (String c4 r4) =>
                     utf8_second c1 c2 && utf8_cont c3 && utf8_cont c4 && utf8_valid r4
                 | _ => false
                 end
               else false
           end
  end.

(** [FromRedisValue] for [Option<String>]: a nil reply is [None], a bulk
    string must be valid UTF-8 ([String::from_utf8]), a type error
    otherwise. *)
Definition get_param_str (r : Redis) (k : Key) (param : string)
  : outcome (option string) :=
  let! rk := redis_key k param in
  match r rk with
  | None => Err StoreError
  | Some None => Ok None
  | Some (Some s) => if utf8_valid s then Ok (Some s) else Err TypeError
  end.

(** [FromRedisValue] for [Option<i64>]: a bulk string is parsed with
    [str::parse::<i64>], a failure being a type error. *)
Definition get_param_int (r : Redis) (k : Key) (param : string)
  : outcome (option Z) :=
  let! rk := redis_key k param in
  match r rk with
  | None => Err StoreError
  | Some None => Ok None
  | Some (Some s) =>
      match parse_i64 s with
      | Some z => Ok (Some z)
      | None => Err TypeError
      end
  end.

(** [Store::get_state]. *)
Definition get_state (r : Redis) (k : Key) : outcome Value :=
  let! st := get_param_str r k "state" in
  let! cur := get_param_int r k "current" in
  let! mx := get_param_int r k "max" in
  Ok (mkValue st cur mx).

(** [.filter_map(|v| Key::from_redis_key(&v).ok())]: decode errors are
    dropped, a panic escapes. *)
Fixpoint filter_decoded (raws : list string) : outcome (list Key) :=
  match raws with
  | [] => Ok []
  | raw :: t =>
      match from_redis_key raw with
      | Ok k => let! r := filter_decoded t in Ok (k :: r)
      | Err _ => filter_decoded t
      | Panic => Panic
      end
  end.

(** [Store::get_all_keys]: the [HashSet<Key>] is a [gset Key]. *)
Definition get_all_keys (s : Scan) (tok keyprefix : string) : outcome (gset Key) :=
  let! kpref := key_try_from (tok, keyprefix) in
  match s (redis_key_pattern kpref) with
  | None => Err StoreError
  | Some raws => let! ks := filter_decoded raws in Ok (list_to_set ks)
  end.

(** Encoding a key for one field, as [Key::try_from] then [redis_key]. *)
Definition encode_key (ns task field : string) : outcome string :=
  let! k := key_try_from (ns, task) in redis_key k field.

(** Encoding a scan pattern, as [Key::try_from] then [redis_key_pattern]. *)
Definition encode_pattern (ns taskprefix : string) : outcome string :=
  let! k := key_try_from (ns, taskprefix) in Ok (redis_key_pattern k).

(** ** Integers on the wire

    [ToRedisArgs] for [i64] and [Display] for [i64] write the decimal form,
    with a leading [-] for negative values. *)

Definition dchar (d : Z) : ascii := ascii_of_nat (48 + Z.to_nat d).

(** Decimal digits of [n >= 0]; a fuel [f] with [n < 2 ^ f] is enough. *)
Fixpoint dec_digits (fuel : nat) (n : Z) : string :=
  match fuel with
  | O => EmptyString
  | S f =>
      if (n <? 10)%Z then String (dchar n) EmptyString
      else dec_digits f (n / 10) ++ String (dchar (n mod 10)) EmptyString
  end.

Definition i64_to_string (z : Z) : string :=
  if (z <? 0)%Z then String "-" (dec_digits (S (Z.to_nat (Z.log2 (- z)))) (- z))
  else dec_digits (S (Z.to_nat (Z.log2 z))) z.

(** ** The redis keyspace and [Store::update] (store.rs 166-172)

    The keyspace maps each key to its stored bytes and the TTL set by the
    last [SETEX]. A connection runs one command and answers [None] on a
    transport failure. *)

Abbreviation RStore := (gmap string (string * Z)).

Definition render_arg (a : Arg) : string :=
  match a with
  | ArgStr s => s
  | ArgInt z => i64_to_string z
  end.

(** [SETEX key ttl value] and [DEL key] on the keyspace. *)
Definition exec_cmd (m : RStore) (c : Cmd) : RStore :=
  match c with
  | SetEx k v ttl => <[k := (render_arg v, ttl)]> m
  | Del k => delete k m
  end.

Definition Exec := RStore -> Cmd -> option RStore.

(** A connection that never fails. *)
Definition reliable : Exec := fun m c => Some (exec_cmd m c).

(** [GET] on the keyspace. *)
Definition redis_of (m : RStore) : Redis := fun k => Some (fst <$> m !! k).

(** Redis glob matching, for the patterns this program builds: [*] matches
    any run of characters, [?] any one character, every other character
    itself. (Redis also gives [\\] and [[...]] a meaning; no pattern built
    from a checked token contains them.) *)
Fixpoint glob (p s : string) : bool :=
  match p with
  | EmptyString => match s with EmptyString => true | _ => false end
  | String "*" p' =>
      (fix star (s : string) : bool :=
         glob p' s || match s with EmptyString => false | String _ s' => star s' end) s
  | String "?" p' => match s with EmptyString => false | String _ s' => glob p' s' end
  | String c p' =>
      match s with
      | EmptyString => false
      | String c' s' => Ascii.eqb c c' && glob p' s'
      end
  end.

(** A character [glob] takes literally. *)
Definition literal_char (c : ascii) : bool :=
  negb (Ascii.eqb c "*") && negb (Ascii.eqb c "?").

(** [scan_match::<_, String>] over the whole keyspace: every key matching
    the pattern. Each page of keys is converted to [String]s; a matching key
    that is not valid UTF-8 fails that conversion, and the real iterator
    then fails (first page) or ends the scan early (later page). The model
    does not tell these apart and answers a failed scan; the statements
    about it assume keyspaces of UTF-8 keys. *)
Definition scan_of (m : RStore) : Scan :=
  fun pat =>
    let raws := List.filter (glob pat) (elements (dom m)) in
    if forallb utf8_valid raws then Some raws else None.

(** [for c in cmds { c.query_async(..).await?; }]. *)
Fixpoint run_cmds (ex : Exec) (m : RStore) (cs : list Cmd) : RStore * outcome unit :=
  match cs with
  | [] => (m, Ok tt)
  | c :: t =>
      match ex m c with
      | None => (m, Err StoreError)
      | Some m' => run_cmds ex m' t
      end
  end.

(** [Store::update]. *)
Definition store_update (ex : Exec) (m : RStore) (u : Update) : RStore * outcome unit :=
  match as_cmds u with
  | Ok cs => run_cmds ex m cs
  | Err e => (m, Err e)
  | Panic => (m, Panic)
  end.

(** ** The [send] route (main.rs 64-81) *)

(** [for u in updates? { store.clone().update(&u).await?; }]. *)
Fixpoint apply_updates (ex : Exec) (m : RStore) (us : list Update) : RStore * outcome unit :=
  match us with
  | [] => (m, Ok tt)
  | u :: t =>
      match store_update ex m u with
      | (m', Ok _) => apply_updates ex m' t
      | (m', Err e) => (m', Err e)
      | (m', Panic) => (m', Panic)
      end
  end.

(** All pairs are parsed (collected into one [Result]) before any command
    is sent. *)
Definition send (ex : Exec) (m : RStore) (tok : string) (query : list (string * string))
  : RStore * outcome string :=
  match collect (map (from_query tok) query) with
  | Ok us =>
      match apply_updates ex m us with
      | (m', Ok _) => (m', Ok "OK")
      | (m', Err e) => (m', Err e)
      | (m', Panic) => (m', Panic)
      end
  | Err e => (m, Err e)
  | Panic => (m, Panic)
  end.

(** ** The [see] route (main.rs 29-62) *)

(** Derived [Ord] for [Key]: token first, then key, each byte-wise. *)
Definition key_compare (k1 k2 : Key) : comparison :=
  match String.compare (token k1) (token k2) with
  | Eq => String.compare (key k1) (key k2)
  | c => c
  end.

Fixpoint insert_key (k : Key) (l : list Key) : list Key :=
  match l with
  | [] => [k]
  | k' :: t =>
      match key_compare k k' with
      | Gt => k' :: insert_key k t
      | _ => k :: k' :: t
      end
  end.

(** [keys.sort()]: the keys of a set are distinct, so every correct sort
    gives this list. *)
Definition sort_keys (l : list Key) : list Key := fold_right insert_key [] l.

Definition nl : string := String (ascii_of_nat 10) EmptyString.

Definition see_sep : string := "<br/><br/><br/>" ++ nl ++ nl ++ nl.

Definition render_line (k : Key) (v : Value) : string :=
  "<b>" ++ key k ++ "</b> <progress value='"
  ++ i64_to_string (default 0%Z (vcurrent v)) ++ "' max='"
  ++ i64_to_string (default 100%Z (vmax v)) ++ "'>what </progress> <i>"
  ++ default "?" (vstate v) ++ "</i>".

(** The body of the [see] route: [get_all_keys(&token, "")], sorted, one
    [get_state] per key, [try_collect], [join]. *)
Definition see (sc : Scan) (r : Redis) (tok : string) : outcome string :=
  let! keys := get_all_keys sc tok "" in
  let! lines := collect (map (fun k => let! st := get_state r k in Ok (render_line k st))
                             (sort_keys (elements keys))) in
  Ok (join see_sep lines).

(** ** Helpers for the statements *)

Definition no_char (d : ascii) (s : string) : Prop :=
  str_all (fun x => negb (Ascii.eqb x d)) s = true.

(** The key of one field, as [Key::redis_key] formats it. *)
Definition field_key (k : Key) (param : string) : string :=
  "pcafe:" ++ token k ++ ":" ++ key k ++ ":" ++ param.

(** An update value with an optional label in front: ["<l>!<body>"], or
    the bare body. *)
Definition with_label (ol : option string) (body : string) : string :=
  match ol with
  | None => body
  | Some l => l ++ String "!" body
  end.

(** The label part of such a value is well formed: a label has no [!] and
    passes [check_string]; without a label the body has no [!]. *)
Definition label_ok (ol : option string) (body : string) : Prop :=
  match ol with
  | None => no_char "!" body
  | Some l => no_char "!" l /\ str_all check_char l = true
  end.

(** ** Update compiler, as the spec describes one tri-state field

    Used only to state what [as_cmds] does for [current] and [max]. *)
Definition spec_field_ops (k : Key) (param : string) (v : option (option Z)) : list Cmd :=
  match v with
  | None => []
  | Some (Some z) => [SetEx (field_key k param) (ArgInt z) EXPIRE_SECONDS]
  | Some None => [Del (field_key k param)]
  end.

(** The label operation: the label is always written or deleted. *)
Definition label_op (k : Key) (st : option string) : Cmd :=
  match st with
  | Some s => SetEx (field_key k "state") (ArgStr s) EXPIRE_SECONDS
  | None => Del (field_key k "state")
  end.

(** A store where the [current] key of task [k] holds ["abc"]. *)
Definition redis_abc_current : Redis :=
  fun rk => Some (if String.eqb rk "pcafe:tok:k:current" then Some "abc" else None).

(** A scan answering three field keys of one task and one foreign key. *)
Definition scan_one_task : Scan :=
  fun _ => Some ["pcafe:tok:a:b:state"; "pcafe:tok:a:b:current";
                 "pcafe:tok:a:b:max"; "pcafe:tok:x y:state"].

(** The command [as_cmd] builds for a field whose key is [x]. *)
Definition cmd_of (x : string) (v : option (option Arg)) : option Cmd :=
  match v with
  | None => None
  | Some (Some a) => Some (SetEx x a EXPIRE_SECONDS)
  | Some None => Some (Del x)
  end.

(** What key [x] holds after that command. *)
Definition field_after (m : RStore) (x : string) (v : option (option Arg))
  : option (string * Z) :=
  match v with
  | None => m !! x
  | Some (Some a) => Some (render_arg a, EXPIRE_SECONDS)
  | Some None => None
  end.

Definition exec_opt (m : RStore) (c : option Cmd) : RStore :=
  match c with
  | None => m
  | Some c => exec_cmd m c
  end.

(** The read [get_state] makes of one integer field once the new value of
    the field is known: a mentioned field gives its value, an unmentioned
    one what the keyspace held before. *)
Definition read_after (r : Redis) (k : Key) (p : string) (v : option (option Z))
  : outcome (option Z) :=
  match v with
  | Some c => Ok c
  | None => get_param_int r k p
  end.

(** ** Evaluation checks *)

Example ex1 : from_query "tok" ("a", "done!5/null") =
  Ok (mkUpdate (mkKey "tok" "a") (Some "done") (Some (Some 5%Z)) (Some None)).
Proof. reflexivity. Qed.
Example ex2 : from_query "tok" ("a", "/50") =
  Ok (mkUpdate (mkKey "tok" "a") None None (Some (Some 50%Z))).
Proof. reflexivity. Qed.
Example ex3 : from_query "tok" ("a", "abc/100") = Err InvalidNumber.
Proof. reflexivity. Qed.
Example ex4 : from_query "tok" ("a", "-12/+7") =
  Ok (mkUpdate (mkKey "tok" "a") None (Some (Some (-12)%Z)) (Some (Some 7%Z))).
Proof. reflexivity. Qed.
Example ex5 : from_query "tok" ("a", "NuLl/") = Err InvalidNumber.
Proof. reflexivity. Qed.
Example ex6 : from_redis_key "pcafe:tok:a:b:state" = Ok (mkKey "tok" "a:b").
Proof. reflexivity. Qed.
Example ex7 : from_redis_key "pcafe:tok" = Panic.
Proof. reflexivity. Qed.
Example ex8 : from_redis_key "pcafe:tok:state" = Ok (mkKey "tok" "").
Proof. reflexivity. Qed.
Example ex9 : parse_i64 "9223372036854775808" = None /\ parse_i64 "-9223372036854775808" = Some (-9223372036854775808)%Z /\ parse_i64 "+" = None /\ parse_i64 "" = None.
Proof. vm_compute. auto. Qed.

(** ** String lemmas *)

Lemma split_once_app d a b :
  no_char d a -> split_once d (a ++ String d b) = Some (a, b).
Proof.
  unfold no_char. induction a as [|c a IH]; simpl.
  - by rewrite Ascii.eqb_refl.
  - intros H. apply andb_prop in H as [Hc Ha].
    destruct (Ascii.eqb c d); [discriminate|]. by rewrite IH.
Qed.

Lemma split_once_none d s : no_char d s -> split_once d s = None.
Proof.
  unfold no_char. induction s as [|c s IH]; simpl; [done|].
  intros H. apply andb_prop in H as [Hc Hs].
  destruct (Ascii.eqb c d); [discriminate|]. by rewrite IH.
Qed.

Lemma split_colon_nonempty s : split_colon s <> [].
Proof.
  induction s as [|c s IH]; simpl; [discriminate|].
  destruct (Ascii.eqb c colon); [discriminate|].
  destruct (split_colon s); discriminate.
Qed.

Lemma split_colon_app x y :
  split_colon (x ++ String colon y) = (split_colon x ++ split_colon y)%list.
Proof.
  induction x as [|c x IH]; simpl.
  - reflexivity.
  - rewrite IH. destruct (Ascii.eqb c colon); [reflexivity|].
    pose proof (split_colon_nonempty x) as Hne.
    destruct (split_colon x); [congruence|reflexivity].
Qed.

Lemma split_colon_nocolon s : no_char colon s -> split_colon s = [s].
Proof.
  unfold no_char. induction s as [|c s IH]; simpl; [done|].
  intros H. apply andb_prop in H as [Hc Hs].
  destruct (Ascii.eqb c colon); [discriminate|]. by rewrite IH.
Qed.

Lemma check_nocolon s : str_all check_char s = true -> no_char colon s.
Proof.
  unfold no_char. induction s as [|c s IH]; simpl; [done|].
  intros H. apply andb_prop in H as [Hc Hs]. rewrite IH by done.
  destruct (Ascii.eqb c colon) eqn:E; [|done].
  apply Ascii.eqb_eq in E. subst. discriminate.
Qed.

Lemma join_split s : join ":" (split_colon s) = s.
Proof.
  induction s as [|c s IH]; simpl; [done|].
  pose proof (split_colon_nonempty s) as Hne.
  destruct (Ascii.eqb c colon) eqn:E.
  - apply Ascii.eqb_eq in E. subst.
    destruct (split_colon s) as [|h t]; [congruence|]. by rewrite <- IH.
  - destruct (split_colon s) as [|h [|h' t]]; [congruence| |]; simpl in *.
    + by subst.
    + by rewrite <- IH.
Qed.

Lemma collect_map_check l :
  Forall (fun s => str_all check_char s = true) l -> collect (map check_string l) = Ok l.
Proof.
  induction 1 as [|s l Hs Hl IH]; simpl; [done|].
  rewrite IH. unfold check_string. by rewrite Hs.
Qed.

Lemma collect_length {A} (l : list (outcome A)) v : collect l = Ok v -> length v = length l.
Proof.
  revert v. induction l as [|x l IH]; simpl; intros v H.
  - by inversion H.
  - destruct x; simpl in H; try discriminate.
    destruct (collect l); simpl in H; try discriminate.
    inversion H; subst. simpl. f_equal. by apply IH.
Qed.

Lemma contains_false d s : no_char d s -> contains d s = false.
Proof. unfold no_char, contains. intros ->. reflexivity. Qed.

Lemma redis_key_ok k param :
  no_char colon param -> redis_key k param = Ok (field_key k param).
Proof. intros H. unfold redis_key. by rewrite contains_false. Qed.

Lemma split_field_key ns task field :
  no_char colon ns -> no_char colon field ->
  split_colon ("pcafe:" ++ ns ++ ":" ++ task ++ ":" ++ field) =
  "pcafe" :: ns :: (split_colon task ++ [field])%list.
Proof.
  intros Hns Hf.
  change ("pcafe:" ++ ns ++ ":" ++ task ++ ":" ++ field) with
    ("pcafe" ++ String colon (ns ++ String colon (task ++ String colon field))).
  rewrite !split_colon_app, (split_colon_nocolon ns), (split_colon_nocolon field) by done.
  reflexivity.
Qed.

(** Decoding once the segments are valid and there are at least three. *)
Lemma from_redis_key_segments raw v0 v1 mid last :
  split_colon raw = (v0 :: v1 :: mid ++ [last])%list ->
  Forall (fun s => str_all check_char s = true) (split_colon raw) ->
  from_redis_key raw =
  if String.eqb v0 "pcafe" then Ok (mkKey v1 (join ":" mid)) else Err BadStructure.
Proof.
  intros Hs Hv. unfold from_redis_key.
  rewrite collect_map_check by done. rewrite Hs. simpl.
  unfold slice. rewrite !length_app. simpl.
  replace (length mid + 1) with (S (length mid)) by lia.
  destruct (Nat.leb_spec (S (length mid)) (S (length (mid ++ [last])))) as [_|Hc];
    [|rewrite length_app in Hc; simpl in Hc; lia].
  simpl. rewrite Nat.sub_0_r.
  rewrite drop_0, take_app_length. reflexivity.
Qed.

(** * Claims *)

(** C1 (corrected). [as_cmds] compiles [current] and [max] independently
    as tri-state fields (absent: nothing, value: SETEX of the field key with
    the 4-hour TTL, null: DEL of the field key). The label is a plain
    optional value passed as [Some(self.state)]: a label is written with the
    TTL and no label deletes the [state] key. Hence 1 to 3 operations, in
    the order state, current, max. *)
Theorem as_cmds_ops (u : Update) :
  exists cmds, as_cmds u = Ok cmds /\
    cmds = (label_op (ukey u) (state u)
              :: spec_field_ops (ukey u) "current" (current u)
              ++ spec_field_ops (ukey u) "max" (max u))%list /\
    1 <= length cmds <= 3.
Proof.
  destruct u as [k st cur mx].
  eexists. split; [reflexivity|]. split.
  - destruct st, cur as [[]|], mx as [[]|]; reflexivity.
  - destruct st, cur as [[]|], mx as [[]|]; simpl; lia.
Qed.

(** C1 counterexample: a report that mentions no field ([""]) yields an
    Update whose compilation still deletes the label key, where the claim
    expects no operation for an absent label. *)
Lemma as_cmds_unmentioned_label_deleted :
  from_query "tok" ("k", "") = Ok (mkUpdate (mkKey "tok" "k") None None None) /\
  as_cmds (mkUpdate (mkKey "tok" "k") None None None) = Ok [Del "pcafe:tok:k:state"] /\
  as_cmds (mkUpdate (mkKey "tok" "k") None None None) <> Ok [].
Proof. split; [reflexivity|]. split; [reflexivity|]. discriminate. Qed.

(** C2 (code bug). [Key::try_from] checks only the token: a task with a
    space or a glob [*] is encoded into a key and into a scan pattern, and
    the key so written is one [from_redis_key] rejects. *)
Theorem encode_task_not_checked :
  encode_key "tok" "a b" "state" = Ok "pcafe:tok:a b:state" /\
  encode_pattern "tok" "a*" = Ok "pcafe:tok:a**" /\
  from_redis_key "pcafe:tok:a b:state" = Err InvalidCharset /\
  encode_key "t k" "a" "state" = Err InvalidCharset.
Proof. repeat split; reflexivity. Qed.

(** C3 (code bug). [from_redis_key] indexes [v[1]] and slices
    [v[2..v.len() - 1]] before matching: a key of one or two valid segments
    panics instead of returning the "Bad structure" error. *)
Theorem from_redis_key_short_panics :
  from_redis_key "pcafe" = Panic /\
  from_redis_key "pcafe:tok" = Panic /\
  from_redis_key "" = Panic /\
  from_redis_key "other:tok" = Panic /\
  from_redis_key "other:tok:x" = Err BadStructure /\
  from_redis_key "pcafe:t k:x" = Err InvalidCharset.
Proof. repeat split; reflexivity. Qed.

(** C4 (corrected). For a namespace and task whose segments pass
    [check_string] and a field name that also passes it (as [state],
    [current] and [max] do), decoding the encoded key gives back the
    namespace and the task. *)
Theorem from_redis_key_encode_key ns task field :
  str_all check_char ns = true ->
  Forall (fun seg => str_all check_char seg = true) (split_colon task) ->
  str_all check_char field = true ->
  exists s, encode_key ns task field = Ok s /\ from_redis_key s = Ok (mkKey ns task).
Proof.
  intros Hns Htask Hf.
  exists (field_key (mkKey ns task) field). split.
  - unfold encode_key, key_try_from, check_string. rewrite Hns. simpl.
    apply redis_key_ok, check_nocolon, Hf.
  - unfold field_key; simpl.
    pose proof (split_field_key ns task field (check_nocolon _ Hns) (check_nocolon _ Hf)) as Hs.
    rewrite (from_redis_key_segments _ _ _ _ _ Hs).
    + simpl. by rewrite join_split.
    + rewrite Hs. constructor; [done|]. constructor; [done|].
      apply Forall_app. split; [done|]. by constructor.
Qed.

Lemma from_redis_key_encode_key_witness :
  exists s, encode_key "tok" "a:b" "state" = Ok s /\
            from_redis_key s = Ok (mkKey "tok" "a:b").
Proof.
  apply from_redis_key_encode_key; [reflexivity| |reflexivity].
  simpl. repeat constructor.
Defined.

(** C4 counterexample: a colon-free field name outside the charset makes
    the encoded key undecodable. *)
Lemma from_redis_key_field_space :
  encode_key "tok" "task" "x y" = Ok "pcafe:tok:task:x y" /\
  from_redis_key "pcafe:tok:task:x y" = Err InvalidCharset.
Proof. split; reflexivity. Qed.

(** C5. Label null (no label), current absent, max 10: a DEL of the label
    key and a SETEX of the max key to 10 with the TTL, nothing else. *)
Theorem as_cmds_del_label_set_max (k : Key) :
  as_cmds (mkUpdate k None None (Some (Some 10%Z))) =
  Ok [Del (field_key k "state"); SetEx (field_key k "max") (ArgInt 10) EXPIRE_SECONDS].
Proof. reflexivity. Qed.

(** ** Update grammar lemmas *)

Lemma no_char_app d a b : no_char d (a ++ b) <-> no_char d a /\ no_char d b.
Proof.
  unfold no_char. induction a as [|c a IH]; simpl; [tauto|].
  rewrite !andb_true_iff, IH. tauto.
Qed.

Lemma append_cons c s t : String c s ++ t = String c (s ++ t).
Proof. reflexivity. Qed.

Lemma append_empty_r s : s ++ "" = s.
Proof. induction s as [|c s IH]; [reflexivity|]. by rewrite append_cons, IH. Qed.

Lemma bind_Ok_inv {A B} (m : outcome A) (f : A -> outcome B) b :
  bind m f = Ok b -> exists a, m = Ok a /\ f a = Ok b.
Proof. destruct m; simpl; [eauto|discriminate|discriminate]. Qed.

Lemma key_try_from_ok tok k :
  str_all check_char tok = true -> key_try_from (tok, k) = Ok (mkKey tok k).
Proof. intros H. unfold key_try_from, check_string. by rewrite H. Qed.

(** Past a well-formed label part, [from_query] goes on with the label it
    read and the body. *)
Lemma from_query_labelled tok k ol body :
  label_ok ol body ->
  from_query tok (k, with_label ol body) =
    (let! cm :=
       match split_once "/" body with
       | Some (c, m) => let! mv := parse_i64_or_null m in Ok (c, Some mv)
       | None => Ok (body, None)
       end in
     let '(c, mx) := cm in
     let! cur :=
       if String.eqb c "" then Ok None
       else let! cv := parse_i64_or_null c in Ok (Some cv) in
     let! kk := key_try_from (tok, k) in
     Ok (mkUpdate kk ol cur mx)).
Proof.
  unfold from_query. destruct ol as [l|]; simpl; intros H.
  - destruct H as [Hl Hc]. rewrite split_once_app by done.
    unfold check_string at 1. rewrite Hc. reflexivity.
  - rewrite split_once_none by done. reflexivity.
Qed.

(** C6. With or without a label in front, an empty current segment
    (before a [/], or an empty body) is absent; an empty max segment after
    a [/] is an [InvalidNumber] error; ["/50"] gives current absent and
    max 50. *)
Theorem from_query_empty_segments tok k ol :
  str_all check_char tok = true ->
  (label_ok ol "" ->
     from_query tok (k, with_label ol "") = Ok (mkUpdate (mkKey tok k) ol None None)) /\
  (forall m mv, label_ok ol (String "/" m) -> parse_i64_or_null m = Ok mv ->
     from_query tok (k, with_label ol (String "/" m)) =
       Ok (mkUpdate (mkKey tok k) ol None (Some mv))) /\
  (forall c, label_ok ol (c ++ "/") -> no_char "/" c ->
     from_query tok (k, with_label ol (c ++ "/")) = Err InvalidNumber) /\
  from_query tok (k, "/50") = Ok (mkUpdate (mkKey tok k) None None (Some (Some 50%Z))).
Proof.
  intros Htok. split; [|split; [|split]].
  - intros Hl. rewrite from_query_labelled by done. simpl.
    unfold key_try_from, check_string; by rewrite Htok.
  - intros m mv Hl Hmv. rewrite from_query_labelled by done. simpl.
    rewrite Hmv. simpl. unfold key_try_from, check_string; by rewrite Htok.
  - intros c Hl Hc. rewrite from_query_labelled by done.
    rewrite split_once_app by done. reflexivity.
  - unfold from_query. simpl. unfold key_try_from, check_string; by rewrite Htok.
Qed.

Lemma from_query_empty_segments_witness :
  from_query "tok" ("k", "go!/null") =
    Ok (mkUpdate (mkKey "tok" "k") (Some "go") None (Some None)) /\
  from_query "tok" ("k", "go!") = Ok (mkUpdate (mkKey "tok" "k") (Some "go") None None) /\
  from_query "tok" ("k", "go!5/") = Err InvalidNumber.
Proof.
  destruct (from_query_empty_segments "tok" "k" (Some "go") eq_refl) as [H1 [H2 [H3 _]]].
  split; [|split].
  - apply (H2 "null" None); [split; reflexivity|reflexivity].
  - apply H1. split; reflexivity.
  - apply (H3 "5"); [split; reflexivity|reflexivity].
Defined.

(** C7. With or without a label in front, a non-empty current segment is
    [Some None] when it is ["null"] in any ASCII case, otherwise parsed as
    an i64: [Some (Some z)] on success, [InvalidNumber] on failure; the max
    segment, if any, being well formed. ["abc/100"] fails with
    [InvalidNumber]. *)
Theorem from_query_current tok k ol c sfx mx :
  str_all check_char tok = true -> label_ok ol (c ++ sfx) -> c <> "" -> no_char "/" c ->
  ((sfx = "" /\ mx = None) \/
   (exists m mv, sfx = String "/" m /\ parse_i64_or_null m = Ok mv /\ mx = Some mv)) ->
  from_query tok (k, with_label ol (c ++ sfx)) =
    (if String.eqb (to_ascii_lowercase c) "null"
     then Ok (mkUpdate (mkKey tok k) ol (Some None) mx)
     else match parse_i64 c with
          | Some z => Ok (mkUpdate (mkKey tok k) ol (Some (Some z)) mx)
          | None => Err InvalidNumber
          end) /\
  from_query tok (k, "abc/100") = Err InvalidNumber.
Proof.
  intros Htok Hl Hne Hc Hsfx. split; [|reflexivity].
  rewrite from_query_labelled by done.
  destruct Hsfx as [[-> ->] | [m [mv [-> [Hmv ->]]]]].
  - rewrite append_empty_r.
    rewrite split_once_none by done. simpl.
    destruct (String.eqb_spec c "") as [E|_]; [congruence|]. simpl.
    unfold parse_i64_or_null.
    destruct (String.eqb (to_ascii_lowercase c) "null"); simpl;
      [|destruct (parse_i64 c)]; simpl;
      unfold key_try_from, check_string; rewrite ?Htok; reflexivity.
  - rewrite split_once_app by done. simpl. rewrite Hmv. simpl.
    destruct (String.eqb_spec c "") as [E|_]; [congruence|]. simpl.
    unfold parse_i64_or_null.
    destruct (String.eqb (to_ascii_lowercase c) "null"); simpl;
      [|destruct (parse_i64 c)]; simpl;
      unfold key_try_from, check_string; rewrite ?Htok; reflexivity.
Qed.

Lemma from_query_current_witness :
  from_query "tok" ("k", "go!NuLl/7") =
    Ok (mkUpdate (mkKey "tok" "k") (Some "go") (Some None) (Some (Some 7%Z))) /\
  from_query "tok" ("k", "go!abc/100") = Err InvalidNumber.
Proof.
  split.
  - apply (proj1 (from_query_current "tok" "k" (Some "go") "NuLl" "/7" (Some (Some 7%Z))
                    eq_refl (conj eq_refl eq_refl) ltac:(discriminate) eq_refl
                    (or_intror (ex_intro _ "7" (ex_intro _ (Some 7%Z)
                       (conj eq_refl (conj eq_refl eq_refl))))))).
  - apply (proj1 (from_query_current "tok" "k" (Some "go") "abc" "/100" (Some (Some 100%Z))
                    eq_refl (conj eq_refl eq_refl) ltac:(discriminate) eq_refl
                    (or_intror (ex_intro _ "100" (ex_intro _ (Some 100%Z)
                       (conj eq_refl (conj eq_refl eq_refl))))))).
Defined.

(** C8 (corrected). The text before the first [!] becomes the label
    [Some l] and must pass [check_string] ([InvalidCharset] otherwise).
    Without a [!] the label is [None], which is not an absent field:
    compiling the Update deletes the label key. ["done!5/null"] gives label
    ["done"], current [5] and max null. *)
Theorem from_query_label tok k :
  (forall l rest, no_char "!" l -> str_all check_char l = false ->
     from_query tok (k, l ++ String "!" rest) = Err InvalidCharset) /\
  (forall l rest u, no_char "!" l ->
     from_query tok (k, l ++ String "!" rest) = Ok u -> state u = Some l) /\
  (forall val u, no_char "!" val -> from_query tok (k, val) = Ok u ->
     state u = None /\
     exists cmds, as_cmds u = Ok (Del (field_key (ukey u) "state") :: cmds)) /\
  (str_all check_char tok = true ->
     from_query tok (k, "done!5/null") =
     Ok (mkUpdate (mkKey tok k) (Some "done") (Some (Some 5%Z)) (Some None))).
Proof.
  split; [|split; [|split]].
  - intros l rest Hl Hbad. unfold from_query.
    rewrite split_once_app by done. unfold check_string at 1. by rewrite Hbad.
  - intros l rest u Hl H. unfold from_query in H.
    rewrite split_once_app in H by done.
    apply bind_Ok_inv in H as [[st r] [Hs H]]. unfold check_string in Hs.
    destruct (str_all check_char l); simpl in Hs; [|discriminate].
    injection Hs as <- <-.
    apply bind_Ok_inv in H as [[c mx] [_ H]].
    apply bind_Ok_inv in H as [cur [_ H]].
    apply bind_Ok_inv in H as [kk [_ H]].
    injection H as <-. reflexivity.
  - intros val u Hval H. unfold from_query in H.
    rewrite split_once_none in H by done. simpl in H.
    apply bind_Ok_inv in H as [[c mx] [_ H]].
    apply bind_Ok_inv in H as [cur [_ H]].
    apply bind_Ok_inv in H as [kk [_ H]].
    injection H as <-. split; [reflexivity|].
    eexists. reflexivity.
  - intros Htok. unfold from_query. simpl.
    unfold key_try_from, check_string; by rewrite Htok.
Qed.

Lemma from_query_label_witness :
  from_query "tok" ("k", "a b!1") = Err InvalidCharset /\
  state (mkUpdate (mkKey "tok" "k") (Some "go") None None) = Some "go" /\
  (state (mkUpdate (mkKey "tok" "k") None (Some (Some 3%Z)) None) = None /\
   exists cmds, as_cmds (mkUpdate (mkKey "tok" "k") None (Some (Some 3%Z)) None) =
                Ok (Del (field_key (mkKey "tok" "k") "state") :: cmds)) /\
  from_query "tok" ("k", "done!5/null") =
    Ok (mkUpdate (mkKey "tok" "k") (Some "done") (Some (Some 5%Z)) (Some None)).
Proof.
  destruct (from_query_label "tok" "k") as [H1 [H2 [H3 H4]]].
  split; [apply (H1 "a b" "1"); reflexivity|].
  split; [apply (H2 "go" "" (mkUpdate (mkKey "tok" "k") (Some "go") None None));
          reflexivity|].
  split; [apply (H3 "3"); reflexivity|].
  apply H4. reflexivity.
Defined.

(** C8 counterexample: a value without [!] does not leave the label
    untouched; its compiled Update deletes the label key. *)
Lemma from_query_no_bang_deletes_label :
  from_query "tok" ("k", "10/100") =
    Ok (mkUpdate (mkKey "tok" "k") None (Some (Some 10%Z)) (Some (Some 100%Z))) /\
  as_cmds (mkUpdate (mkKey "tok" "k") None (Some (Some 10%Z)) (Some (Some 100%Z))) =
    Ok [Del "pcafe:tok:k:state";
        SetEx "pcafe:tok:k:current" (ArgInt 10) EXPIRE_SECONDS;
        SetEx "pcafe:tok:k:max" (ArgInt 100) EXPIRE_SECONDS].
Proof. split; reflexivity. Qed.

(** ** State reader and enumerator lemmas *)

Lemma redis_key_fields k :
  redis_key k "state" = Ok (field_key k "state") /\
  redis_key k "current" = Ok (field_key k "current") /\
  redis_key k "max" = Ok (field_key k "max").
Proof. repeat split; apply redis_key_ok; reflexivity. Qed.

(** C9 (corrected). [get_state] never panics and fails only when a [GET]
    fails ([StoreError]: a transport failure or an error reply), when the
    bytes stored under [state] are not valid UTF-8, or when a value stored
    under [current] or [max] does not parse as an i64 (both [TypeError]); a
    field whose key is missing is [None], so a task with no stored field
    reads as three [None]s; an error carries no partial record. *)
Theorem get_state_spec (r : Redis) (k : Key) :
  get_state r k <> Panic /\
  (forall e, get_state r k = Err e ->
     (e = StoreError /\
      (r (field_key k "state") = None \/ r (field_key k "current") = None \/
       r (field_key k "max") = None)) \/
     (e = TypeError /\
      ((exists s, r (field_key k "state") = Some (Some s) /\ utf8_valid s = false) \/
       exists p s, (p = "current" \/ p = "max") /\
                   r (field_key k p) = Some (Some s) /\ parse_i64 s = None))) /\
  (forall ost oc om,
     r (field_key k "state") = Some ost ->
     r (field_key k "current") = Some oc ->
     r (field_key k "max") = Some om ->
     (forall s, ost = Some s -> utf8_valid s = true) ->
     (forall s, oc = Some s -> parse_i64 s <> None) ->
     (forall s, om = Some s -> parse_i64 s <> None) ->
     get_state r k = Ok (mkValue ost (oc ≫= parse_i64) (om ≫= parse_i64))) /\
  (r (field_key k "state") = Some None ->
   r (field_key k "current") = Some None ->
   r (field_key k "max") = Some None ->
   get_state r k = Ok (mkValue None None None)).
Proof.
  destruct (redis_key_fields k) as [Hs [Hc Hm]].
  unfold get_state, get_param_str, get_param_int. rewrite Hs, Hc, Hm. simpl.
  split; [|split; [|split]].
  - destruct (r (field_key k "state")) as [[s0|]|]; simpl; try discriminate;
    try destruct (utf8_valid s0); simpl; try discriminate;
    destruct (r (field_key k "current")) as [[s1|]|]; simpl; try discriminate;
    try destruct (parse_i64 s1); simpl; try discriminate;
    destruct (r (field_key k "max")) as [[s2|]|]; simpl; try discriminate;
    try destruct (parse_i64 s2); simpl; discriminate.
  - intros e He.
    destruct (r (field_key k "state")) as [[s0|]|] eqn:E1;
    try destruct (utf8_valid s0) eqn:U0;
    destruct (r (field_key k "current")) as [[s1|]|] eqn:E2;
    destruct (r (field_key k "max")) as [[s2|]|] eqn:E3;
    try destruct (parse_i64 s1) eqn:P1; try destruct (parse_i64 s2) eqn:P2;
    simpl in He; try discriminate; injection He as <-;
    first [ left; naive_solver
          | right; split; [done|]; left; exists s0; done
          | right; split; [done|]; right;
            first [exists "current", s1; naive_solver
                  | exists "max", s2; naive_solver] ].
  - intros ost oc om E1 E2 E3 Hst Hoc Hom. rewrite E1, E2, E3.
    destruct ost as [s0|], oc as [s1|], om as [s2|]; simpl;
      try rewrite (Hst s0 eq_refl); simpl;
      try (destruct (parse_i64 s1) eqn:P1; [|by destruct (Hoc s1)]);
      try (destruct (parse_i64 s2) eqn:P2; [|by destruct (Hom s2)]);
      reflexivity.
  - intros E1 E2 E3. rewrite E1, E2, E3. reflexivity.
Qed.

Lemma get_state_spec_witness :
  get_state (fun _ => None) (mkKey "tok" "k") = Err StoreError /\
  ((StoreError = StoreError /\
    ((fun _ : string => @None (option string)) (field_key (mkKey "tok" "k") "state") = None \/
     (fun _ : string => @None (option string)) (field_key (mkKey "tok" "k") "current") = None \/
     (fun _ : string => @None (option string)) (field_key (mkKey "tok" "k") "max") = None)) \/
   (StoreError = TypeError /\
    ((exists s, (fun _ : string => @None (option string)) (field_key (mkKey "tok" "k") "state")
                  = Some (Some s) /\ utf8_valid s = false) \/
     exists p s, (p = "current" \/ p = "max") /\
      (fun _ : string => @None (option string)) (field_key (mkKey "tok" "k") p) = Some (Some s) /\
      parse_i64 s = None))) /\
  get_state (fun rk => Some (if String.eqb rk "pcafe:tok:k:state" then Some "go"
                             else if String.eqb rk "pcafe:tok:k:current" then Some "5"
                             else None)) (mkKey "tok" "k") =
    Ok (mkValue (Some "go") (Some "5" ≫= parse_i64) (None ≫= parse_i64)) /\
  get_state (fun _ => Some None) (mkKey "tok" "k") = Ok (mkValue None None None).
Proof.
  split; [reflexivity|]. split.
  { apply (proj1 (proj2 (get_state_spec (fun _ => None) (mkKey "tok" "k")))).
    reflexivity. }
  split.
  - apply (proj1 (proj2 (proj2 (get_state_spec _ (mkKey "tok" "k")))));
      [reflexivity|reflexivity|reflexivity| | |].
    + intros s H. injection H as <-. reflexivity.
    + intros s H. injection H as <-. discriminate.
    + intros s H. discriminate.
  - apply (proj2 (proj2 (proj2 (get_state_spec (fun _ => Some None) (mkKey "tok" "k")))));
      reflexivity.
Defined.

(** C9 counterexample: no read fails in transport, yet [get_state] fails,
    because the stored [current] value is not an integer. *)
Lemma get_state_non_integer_current :
  (forall rk, redis_abc_current rk <> None) /\
  get_state redis_abc_current (mkKey "tok" "k") = Err TypeError.
Proof. split; [intros rk; discriminate|reflexivity]. Qed.

Lemma collect_check_no_panic l : collect (map check_string l) <> Panic.
Proof.
  induction l as [|s l IH]; simpl; [discriminate|].
  unfold check_string at 1. destruct (str_all check_char s); simpl; [|discriminate].
  destruct (collect (map check_string l)); simpl; congruence.
Qed.

(** A key of at least three segments never makes [from_redis_key] panic. *)
Lemma from_redis_key_no_panic raw :
  3 <= length (split_colon raw) -> from_redis_key raw <> Panic.
Proof.
  intros Hlen. unfold from_redis_key.
  pose proof (collect_check_no_panic (split_colon raw)) as Hnp.
  destruct (collect (map check_string (split_colon raw))) as [v| |] eqn:E;
    simpl; try discriminate; [|done].
  apply collect_length in E. rewrite length_map in E.
  destruct v as [|v0 [|v1 [|x w]]]; simpl in E; try lia. simpl.
  unfold slice. simpl.
  destruct (Nat.leb_spec (length w) (S (length w))) as [_|Hc]; [|lia].
  simpl. destruct (String.eqb v0 "pcafe"); discriminate.
Qed.

(** Every key matching the pattern of a valid token has a
    ["pcafe:<token>:"] prefix, hence at least three segments. *)
Lemma split_colon_prefixed tok rest :
  no_char colon tok -> 3 <= length (split_colon ("pcafe:" ++ tok ++ ":" ++ rest)).
Proof.
  intros Htok.
  change ("pcafe:" ++ tok ++ ":" ++ rest) with
    ("pcafe" ++ String colon (tok ++ String colon rest)).
  rewrite !split_colon_app, (split_colon_nocolon tok) by done. simpl.
  pose proof (split_colon_nonempty rest).
  destruct (split_colon rest); [congruence|simpl; lia].
Qed.

Lemma filter_decoded_spec raws :
  Forall (fun raw => from_redis_key raw <> Panic) raws ->
  exists ks, filter_decoded raws = Ok ks /\
    forall kk, In kk ks <-> exists raw, In raw raws /\ from_redis_key raw = Ok kk.
Proof.
  induction 1 as [|raw raws Hraw _ IH]; simpl.
  - exists []. split; [done|]. simpl. naive_solver.
  - destruct IH as [ks [Hks Hin]].
    destruct (from_redis_key raw) as [k0|e|] eqn:E; [| |congruence].
    + exists (k0 :: ks). rewrite Hks. split; [done|].
      intros kk. simpl. rewrite Hin. split.
      * intros [<-|[r [Hr Hd]]]; eauto.
      * intros [r [[<-|Hr] Hd]]; [left; congruence|eauto].
    + exists ks. split; [done|]. intros kk. rewrite Hin. split.
      * intros [r [Hr Hd]]; eauto.
      * intros [r [[<-|Hr] Hd]]; [congruence|eauto].
Qed.

(** C10. For raw keys returned by the scan of the pattern of a valid token
    (each of them starts with ["pcafe:<token>:"]), [get_all_keys] returns a
    set: exactly the keys that decode, each once, keys failing to decode
    dropped without an error. *)
Theorem get_all_keys_spec (sc : Scan) tok pref raws :
  str_all check_char tok = true ->
  sc (redis_key_pattern (mkKey tok pref)) = Some raws ->
  Forall (fun raw => exists rest, raw = "pcafe:" ++ tok ++ ":" ++ rest) raws ->
  exists S, get_all_keys sc tok pref = Ok S /\
    (forall kk, kk ∈ S <-> exists raw, In raw raws /\ from_redis_key raw = Ok kk) /\
    NoDup (elements S).
Proof.
  intros Htok Hsc Hraws.
  assert (Hnp : Forall (fun raw => from_redis_key raw <> Panic) raws).
  { eapply Forall_impl; [exact Hraws|]. intros raw [rest ->].
    apply from_redis_key_no_panic, split_colon_prefixed, check_nocolon, Htok. }
  destruct (filter_decoded_spec raws Hnp) as [ks [Hks Hin]].
  exists (list_to_set ks). split; [|split].
  - unfold get_all_keys. rewrite key_try_from_ok by done. simpl.
    rewrite Hsc. simpl. rewrite Hks. reflexivity.
  - intros kk. rewrite elem_of_list_to_set, list_elem_of_In. apply Hin.
  - apply NoDup_elements.
Qed.

Example get_all_keys_one_task :
  get_all_keys scan_one_task "tok" "" = Ok {[mkKey "tok" "a:b"]}.
Proof. vm_compute. reflexivity. Qed.

Lemma get_all_keys_spec_witness :
  exists S, get_all_keys scan_one_task "tok" "" = Ok S /\
    (forall kk, kk ∈ S <-> exists raw,
        In raw ["pcafe:tok:a:b:state"; "pcafe:tok:a:b:current";
                "pcafe:tok:a:b:max"; "pcafe:tok:x y:state"] /\
        from_redis_key raw = Ok kk) /\
    NoDup (elements S).
Proof.
  apply (get_all_keys_spec scan_one_task "tok" ""); [reflexivity|reflexivity|].
  repeat constructor; eexists; reflexivity.
Defined.

(** ** Integers written by [SETEX] read back *)

Lemma parse_digits_app a s t :
  parse_digits a (s ++ t) =
  match parse_digits a s with Some v => parse_digits v t | None => None end.
Proof.
  revert a. induction s as [|c s IH]; intros a; [reflexivity|].
  rewrite append_cons. simpl. destruct (digit_value c); [apply IH|reflexivity].
Qed.

Lemma digit_value_dchar d : (0 <= d <= 9)%Z -> digit_value (dchar d) = Some d.
Proof.
  intros Hd.
  assert (d = 0 \/ d = 1 \/ d = 2 \/ d = 3 \/ d = 4 \/ d = 5 \/ d = 6 \/ d = 7
          \/ d = 8 \/ d = 9)%Z as Hc by lia.
  repeat destruct Hc as [->|Hc]; [reflexivity..|subst; reflexivity].
Qed.

Lemma dec_digits_S f n :
  dec_digits (S f) n =
  if (n <? 10)%Z then String (dchar n) EmptyString
  else dec_digits f (n / 10) ++ String (dchar (n mod 10)) EmptyString.
Proof. reflexivity. Qed.

Lemma parse_dec_digits f n :
  (0 <= n < 2 ^ Z.of_nat f)%Z -> parse_digits 0 (dec_digits f n) = Some n.
Proof.
  revert n. induction f as [|f IH]; intros n Hn.
  { simpl in Hn. assert (n = 0%Z) as -> by lia. reflexivity. }
  rewrite dec_digits_S. destruct (Z.ltb_spec n 10) as [Hlt|Hge].
  - cbn [parse_digits]. rewrite digit_value_dchar by lia. reflexivity.
  - rewrite parse_digits_app, IH.
    + cbn [parse_digits].
      rewrite digit_value_dchar by (pose proof (Z.mod_pos_bound n 10); lia).
      cbn [parse_digits]. f_equal. rewrite Z.mul_comm. symmetry. apply Z.div_mod. lia.
    + split; [apply Z.div_pos; lia|].
      apply Z.div_lt_upper_bound; [lia|].
      rewrite Nat2Z.inj_succ, Z.pow_succ_r in Hn by lia. lia.
Qed.

Lemma dec_digits_head f n :
  (0 <= n < 2 ^ Z.of_nat (S f))%Z ->
  exists c r, dec_digits (S f) n = String c r /\ digit_value c <> None.
Proof.
  revert n. induction f as [|f IH]; intros n Hn.
  { simpl in Hn |- *. rewrite (proj2 (Z.ltb_lt n 10)) by lia.
    exists (dchar n), EmptyString. rewrite digit_value_dchar by lia. done. }
  rewrite dec_digits_S. destruct (Z.ltb_spec n 10) as [Hlt|Hge].
  - exists (dchar n), EmptyString. rewrite digit_value_dchar by lia. done.
  - assert (Hq : (0 <= n / 10 < 2 ^ Z.of_nat (S f))%Z).
    { split; [apply Z.div_pos; lia|].
      apply Z.div_lt_upper_bound; [lia|].
      rewrite Nat2Z.inj_succ, Z.pow_succ_r in Hn by lia. lia. }
    destruct (IH _ Hq) as [c [r [Hd Hc]]]. rewrite Hd.
    exists c, (r ++ String (dchar (n mod 10)) EmptyString). done.
Qed.

Lemma parse_i64_digit_head c r :
  digit_value c <> None ->
  parse_i64 (String c r) =
  match parse_digits 0 (String c r) with
  | Some v =>
      if (i64_min <=? 1 * v)%Z && (1 * v <=? i64_max)%Z then Some (1 * v)%Z else None
  | None => None
  end.
Proof.
  intros Hc.
  destruct c as [[] [] [] [] [] [] [] []]; try reflexivity; by destruct Hc.
Qed.

Lemma parse_i64_minus c r :
  parse_i64 (String "-" (String c r)) =
  match parse_digits 0 (String c r) with
  | Some v =>
      if (i64_min <=? -1 * v)%Z && (-1 * v <=? i64_max)%Z then Some (-1 * v)%Z else None
  | None => None
  end.
Proof. reflexivity. Qed.

Lemma log2_fuel n : (0 <= n)%Z -> (0 <= n < 2 ^ Z.of_nat (S (Z.to_nat (Z.log2 n))))%Z.
Proof.
  intros Hn. split; [done|].
  rewrite Nat2Z.inj_succ, Z2Nat.id by apply Z.log2_nonneg.
  destruct (Z.eq_dec n 0%Z) as [->|Hn0]; [reflexivity|].
  apply Z.log2_spec. lia.
Qed.

Lemma i64_render_parse z :
  (i64_min <= z <= i64_max)%Z -> parse_i64 (i64_to_string z) = Some z.
Proof.
  intros Hz. unfold i64_to_string.
  destruct (Z.ltb_spec z 0) as [Hneg|Hpos].
  - pose proof (log2_fuel (- z) ltac:(lia)) as Hf.
    destruct (dec_digits_head _ _ Hf) as [c [r [Hd _]]].
    rewrite Hd, parse_i64_minus, <- Hd, parse_dec_digits by done.
    replace (-1 * - z)%Z with z by lia.
    unfold i64_min, i64_max in *.
    rewrite (proj2 (Z.leb_le _ _)), (proj2 (Z.leb_le _ _)) by lia. reflexivity.
  - pose proof (log2_fuel z Hpos) as Hf.
    destruct (dec_digits_head _ _ Hf) as [c [r [Hd Hc]]].
    rewrite Hd, parse_i64_digit_head by done. rewrite <- Hd, parse_dec_digits by done.
    rewrite Z.mul_1_l. unfold i64_min, i64_max in *.
    rewrite (proj2 (Z.leb_le _ _)), (proj2 (Z.leb_le _ _)) by lia. reflexivity.
Qed.

(** The decimal rendering of an i64, as [SETEX] sends it and [see] prints
    it, parses back with [str::parse::<i64>] to the same value, from
    [i64::MIN] to [i64::MAX]. *)
Theorem parse_i64_to_string z :
  (i64_min <= z <= i64_max)%Z -> parse_i64 (i64_to_string z) = Some z.
Proof. exact (i64_render_parse z). Qed.

(** ** [Store::update] on the keyspace *)

Lemma append_inv_l s a b : s ++ a = s ++ b -> a = b.
Proof.
  induction s as [|c s IH]; [done|].
  rewrite !append_cons. intros H. injection H. apply IH.
Qed.

Lemma field_key_param_inj k p1 p2 : field_key k p1 = field_key k p2 -> p1 = p2.
Proof.
  unfold field_key. intros H.
  apply append_inv_l, append_inv_l, append_inv_l, append_inv_l, append_inv_l in H.
  exact H.
Qed.

Lemma field_keys_distinct k :
  field_key k "state" <> field_key k "current" /\
  field_key k "state" <> field_key k "max" /\
  field_key k "current" <> field_key k "max".
Proof. repeat split; intros H; apply field_key_param_inj in H; discriminate. Qed.

Lemma run_cmds_reliable m cs : run_cmds reliable m cs = (foldl exec_cmd m cs, Ok tt).
Proof. revert m. induction cs as [|c cs IH]; intros m; [done|]. apply IH. Qed.

Lemma foldl_option_list m o : foldl exec_cmd m (option_list o) = exec_opt m o.
Proof. by destruct o. Qed.

Lemma store_update_reliable m u :
  store_update reliable m u =
  (exec_opt (exec_opt (exec_opt m
     (cmd_of (field_key (ukey u) "state") (Some (option_map ArgStr (state u)))))
     (cmd_of (field_key (ukey u) "current") (option_map (option_map ArgInt) (current u))))
     (cmd_of (field_key (ukey u) "max") (option_map (option_map ArgInt) (max u))),
   Ok tt).
Proof.
  unfold store_update, as_cmds, as_cmd.
  destruct (redis_key_fields (ukey u)) as [Hs [Hc Hm]]. rewrite Hs, Hc, Hm. simpl.
  rewrite run_cmds_reliable, !foldl_app, !foldl_option_list. simpl.
  destruct (state u); destruct (current u) as [[]|]; destruct (max u) as [[]|];
    reflexivity.
Qed.

Lemma exec_opt_lookup m x v y :
  exec_opt m (cmd_of x v) !! y = if decide (y = x) then field_after m x v else m !! y.
Proof.
  destruct v as [[a|]|]; simpl.
  - rewrite lookup_insert. case_decide; case_decide; congruence.
  - rewrite lookup_delete. case_decide; case_decide; congruence.
  - case_decide; subst; done.
Qed.

Lemma store_update_fields m u :
  let k := ukey u in
  let m' := fst (store_update reliable m u) in
  snd (store_update reliable m u) = Ok tt /\
  m' !! field_key k "state" = (fun s => (s, EXPIRE_SECONDS)) <$> state u /\
  m' !! field_key k "current" =
    field_after m (field_key k "current") (option_map (option_map ArgInt) (current u)) /\
  m' !! field_key k "max" =
    field_after m (field_key k "max") (option_map (option_map ArgInt) (max u)) /\
  (forall y, y <> field_key k "state" -> y <> field_key k "current" ->
     y <> field_key k "max" -> m' !! y = m !! y).
Proof.
  simpl. rewrite store_update_reliable. simpl.
  destruct (field_keys_distinct (ukey u)) as [D1 [D2 D3]].
  split; [done|].
  repeat split; [..|intros y H1 H2 H3];
    destruct (state u); destruct (current u) as [[]|]; destruct (max u) as [[]|]; simpl;
    repeat first [ rewrite lookup_insert_eq | rewrite lookup_delete_eq
                 | rewrite lookup_insert_ne by congruence
                 | rewrite lookup_delete_ne by congruence ];
    reflexivity.
Qed.

(** [Store::update] with every command accepted: it succeeds, and its only
    effect on the keyspace is on the three field keys of the task. The
    [state] key is always written (or deleted when there is no label), an
    integer field is written with its decimal rendering, deleted on [null],
    and left as it was when the update does not mention it; every other key
    is untouched. All written keys carry the four-hour expiry. *)
Theorem store_update_keyspace m u :
  let k := ukey u in
  let m' := fst (store_update reliable m u) in
  snd (store_update reliable m u) = Ok tt /\
  m' !! field_key k "state" = (fun s => (s, EXPIRE_SECONDS)) <$> state u /\
  m' !! field_key k "current" =
    field_after m (field_key k "current") (option_map (option_map ArgInt) (current u)) /\
  m' !! field_key k "max" =
    field_after m (field_key k "max") (option_map (option_map ArgInt) (max u)) /\
  (forall y, y <> field_key k "state" -> y <> field_key k "current" ->
     y <> field_key k "max" -> m' !! y = m !! y).
Proof. exact (store_update_fields m u). Qed.

Lemma field_key_injective k1 k2 p1 p2 :
  no_char colon (token k1) -> no_char colon (token k2) ->
  no_char colon p1 -> no_char colon p2 ->
  field_key k1 p1 = field_key k2 p2 -> k1 = k2 /\ p1 = p2.
Proof.
  intros T1 T2 P1 P2 E. unfold field_key in E.
  apply (f_equal split_colon) in E.
  rewrite !split_field_key in E by done.
  injection E as Et El.
  apply app_inj_tail in El as [Ek Ep].
  split; [|done].
  destruct k1 as [t1 a1], k2 as [t2 a2]; simpl in *.
  rewrite <- (join_split a1), <- (join_split a2), Ek. congruence.
Qed.

(** [Key::redis_key] is injective on well-formed input: two field keys
    with colon-free tokens and colon-free field names coincide only for
    the same task and the same field. The task name itself may contain
    colons. *)
Theorem field_key_inj k1 k2 p1 p2 :
  no_char colon (token k1) -> no_char colon (token k2) ->
  no_char colon p1 -> no_char colon p2 ->
  field_key k1 p1 = field_key k2 p2 -> k1 = k2 /\ p1 = p2.
Proof. exact (field_key_injective k1 k2 p1 p2). Qed.

Lemma field_key_inj_witness :
  no_char colon (token (mkKey "t" "a:b")) /\ no_char colon (token (mkKey "t" "a:b")) /\
  no_char colon "max" /\ no_char colon "max" /\
  field_key (mkKey "t" "a:b") "max" = field_key (mkKey "t" "a:b") "max" /\
  (mkKey "t" "a:b" = mkKey "t" "a:b" /\ "max" = "max").
Proof.
  do 5 (split; [reflexivity|]).
  apply field_key_inj; reflexivity.
Defined.

Lemma get_state_congr r1 r2 k :
  r1 (field_key k "state") = r2 (field_key k "state") ->
  r1 (field_key k "current") = r2 (field_key k "current") ->
  r1 (field_key k "max") = r2 (field_key k "max") ->
  get_state r1 k = get_state r2 k.
Proof.
  intros E1 E2 E3. unfold get_state, get_param_str, get_param_int.
  destruct (redis_key_fields k) as [Hs [Hc Hm]]. rewrite Hs, Hc, Hm. simpl.
  by rewrite E1, E2, E3.
Qed.

Lemma store_update_get_state m u :
  (forall s, state u = Some s -> utf8_valid s = true) ->
  (forall z, current u = Some (Some z) -> (i64_min <= z <= i64_max)%Z) ->
  (forall z, max u = Some (Some z) -> (i64_min <= z <= i64_max)%Z) ->
  get_state (redis_of (fst (store_update reliable m u))) (ukey u) =
    let! c := read_after (redis_of m) (ukey u) "current" (current u) in
    let! x := read_after (redis_of m) (ukey u) "max" (max u) in
    Ok (mkValue (state u) c x).
Proof.
  intros Rs Rc Rx.
  destruct (store_update_fields m u) as [_ [Es [Ec [Ex _]]]]. simpl in Es, Ec, Ex.
  unfold get_state, get_param_str, get_param_int, read_after.
  destruct (redis_key_fields (ukey u)) as [Hs [Hc Hm]]. rewrite Hs, Hc, Hm. simpl.
  unfold redis_of. rewrite Es, Ec, Ex.
  destruct (state u) as [l|]; simpl; [rewrite (Rs l eq_refl); simpl|];
  destruct (current u) as [[c|]|]; simpl;
    try (rewrite i64_render_parse by (apply Rc; done)); simpl;
  destruct (max u) as [[x|]|]; simpl;
    try (rewrite i64_render_parse by (apply Rx; done)); reflexivity.
Qed.

(** Reading a task back after [Store::update] succeeded: [get_state]
    returns the label of the update, and for [current] and [max] the value
    the update gave ([None] for [null]) or, for a field the update left
    out, what the keyspace answered before. The label is a Rust [String],
    hence valid UTF-8, and the values are i64s, as in every [Update]. *)
Theorem store_update_read_back m u :
  (forall s, state u = Some s -> utf8_valid s = true) ->
  (forall z, current u = Some (Some z) -> (i64_min <= z <= i64_max)%Z) ->
  (forall z, max u = Some (Some z) -> (i64_min <= z <= i64_max)%Z) ->
  get_state (redis_of (fst (store_update reliable m u))) (ukey u) =
    let! c := read_after (redis_of m) (ukey u) "current" (current u) in
    let! x := read_after (redis_of m) (ukey u) "max" (max u) in
    Ok (mkValue (state u) c x).
Proof. exact (store_update_get_state m u). Qed.

Lemma store_update_read_back_witness :
  get_state (redis_of (fst (store_update reliable ∅
    (mkUpdate (mkKey "t" "a") (Some "go") (Some (Some (-12)%Z)) (Some None)))))
    (mkKey "t" "a") = Ok (mkValue (Some "go") (Some (-12)%Z) None).
Proof.
  pose proof (store_update_read_back ∅
    (mkUpdate (mkKey "t" "a") (Some "go") (Some (Some (-12)%Z)) (Some None))) as H.
  refine (eq_trans (H _ _ _) eq_refl).
  - intros l E. injection E as <-. reflexivity.
  - intros z E. injection E as <-. unfold i64_min, i64_max. lia.
  - intros z E. discriminate.
Defined.

(** [Store::update] of one task leaves what [get_state] reads for every
    other task as it was. *)
Theorem store_update_other_task m u k :
  no_char colon (token k) -> no_char colon (token (ukey u)) -> k <> ukey u ->
  get_state (redis_of (fst (store_update reliable m u))) k = get_state (redis_of m) k.
Proof.
  intros Tk Tu Hne.
  destruct (store_update_fields m u) as [_ [_ [_ [_ Eo]]]]. simpl in Eo.
  assert (D : forall p q, no_char colon p -> no_char colon q ->
            field_key k p <> field_key (ukey u) q).
  { intros p q Hp Hq E. apply field_key_injective in E as [? _]; done. }
  apply get_state_congr; unfold redis_of; rewrite Eo; try reflexivity;
    apply D; reflexivity.
Qed.

Lemma store_update_other_task_witness :
  get_state (redis_of (fst (store_update reliable
    {[ "pcafe:t:b:state" := ("idle", 5%Z) ]}
    (mkUpdate (mkKey "t" "a") (Some "go") None None))))
    (mkKey "t" "b") = Ok (mkValue (Some "idle") None None).
Proof.
  rewrite (store_update_other_task _ _ (mkKey "t" "b")); [| reflexivity | reflexivity | discriminate].
  reflexivity.
Defined.

(** ** [send]: parsing the query, then updating *)

Lemma parse_i64_range s z : parse_i64 s = Some z -> (i64_min <= z <= i64_max)%Z.
Proof.
  unfold parse_i64. intros H. repeat case_match; simplify_eq;
  match goal with Hb : (_ && _)%bool = true |- _ =>
    apply andb_prop in Hb as [B1 B2] end;
  apply Z.leb_le in B1, B2; lia.
Qed.

Lemma parse_i64_or_null_range s z :
  parse_i64_or_null s = Ok (Some z) -> (i64_min <= z <= i64_max)%Z.
Proof.
  unfold parse_i64_or_null. intros H. repeat case_match; simplify_eq.
  by eapply parse_i64_range.
Qed.

Lemma check_string_ok s s' : check_string s = Ok s' -> s' = s /\ str_all check_char s = true.
Proof. unfold check_string. case_match; intros; simplify_eq; done. Qed.

Lemma from_query_update_wf tok q u :
  from_query tok q = Ok u ->
  str_all check_char (token (ukey u)) = true /\
  (forall s, state u = Some s -> str_all check_char s = true) /\
  (forall z, current u = Some (Some z) -> (i64_min <= z <= i64_max)%Z) /\
  (forall z, max u = Some (Some z) -> (i64_min <= z <= i64_max)%Z).
Proof.
  destruct q as [k v]. unfold from_query, key_try_from, bind. intros H.
  repeat case_match; simplify_eq/=;
  repeat match goal with
         | C : check_string _ = Ok _ |- _ => apply check_string_ok in C as [-> ?]
         end;
  split_and!; try done;
  intros ? E; simplify_eq; try done; by eapply parse_i64_or_null_range.
Qed.

Lemma ascii_utf8 s :
  str_all (fun c => Nat.ltb (nat_of_ascii c) 128) s = true -> utf8_valid s = true.
Proof.
  induction s as [|c s IH]; simpl; [done|]. intros H.
  apply andb_prop in H as [-> H]. auto.
Qed.

Lemma check_char_ascii c : check_char c = true -> Nat.ltb (nat_of_ascii c) 128 = true.
Proof. destruct c as [[] [] [] [] [] [] [] []]; try discriminate; reflexivity. Qed.

Lemma check_utf8 s : str_all check_char s = true -> utf8_valid s = true.
Proof.
  intros H. apply ascii_utf8. induction s as [|c s IH]; simpl in *; [done|].
  apply andb_prop in H as [Hc H]. by rewrite check_char_ascii, IH.
Qed.

(** What every [Update] built by [from_query] satisfies: a token and a
    label made of the allowed characters only, and [current] and [max]
    values within the i64 range. *)
Theorem from_query_ok_wf tok q u :
  from_query tok q = Ok u ->
  str_all check_char (token (ukey u)) = true /\
  (forall s, state u = Some s -> str_all check_char s = true) /\
  (forall z, current u = Some (Some z) -> (i64_min <= z <= i64_max)%Z) /\
  (forall z, max u = Some (Some z) -> (i64_min <= z <= i64_max)%Z).
Proof. exact (from_query_update_wf tok q u). Qed.

Lemma from_query_ok_wf_witness :
  from_query "t" ("a", "go!5/100") =
    Ok (mkUpdate (mkKey "t" "a") (Some "go") (Some (Some 5%Z)) (Some (Some 100%Z))) /\
  str_all check_char "t" = true /\
  (forall s, Some "go" = Some s -> str_all check_char s = true) /\
  (forall z, Some (Some 5%Z) = Some (Some z) -> (i64_min <= z <= i64_max)%Z) /\
  (forall z, Some (Some 100%Z) = Some (Some z) -> (i64_min <= z <= i64_max)%Z).
Proof.
  split; [reflexivity|].
  exact (from_query_ok_wf "t" ("a", "go!5/100")
           (mkUpdate (mkKey "t" "a") (Some "go") (Some (Some 5%Z)) (Some (Some 100%Z)))
           eq_refl).
Defined.

Lemma from_query_never_panics tok q : from_query tok q <> Panic.
Proof.
  destruct q as [k v].
  unfold from_query, key_try_from, bind, check_string, parse_i64_or_null.
  repeat case_match; simplify_eq/=; discriminate.
Qed.

Lemma collect_Ok_In {A} (l : list (outcome A)) xs x :
  collect l = Ok xs -> In x l -> exists a, x = Ok a.
Proof.
  revert xs. induction l as [|y l IH]; simpl; intros xs H Hin; [done|].
  destruct y as [a| |]; simpl in H; try discriminate.
  destruct Hin as [<-|Hin]; [eauto|].
  destruct (collect l) as [r| |] eqn:E; simpl in H; try discriminate. eauto.
Qed.

Lemma collect_no_panic {A} (l : list (outcome A)) :
  (forall x, In x l -> x <> Panic) -> collect l <> Panic.
Proof.
  induction l as [|y l IH]; simpl; intros H; [discriminate|].
  destruct y as [a| |] eqn:Ey; simpl; [|discriminate|].
  - destruct (collect l); simpl; [discriminate|discriminate|].
    apply IH; auto.
  - exfalso. by apply (H Panic); [left|].
Qed.

(** [send] parses every pair before it sends anything: if one pair of the
    query does not parse, the request fails and the keyspace is left as it
    was, whatever the store would have done. *)
Theorem send_rejects_bad_pair ex m tok query q e :
  In q query -> from_query tok q = Err e ->
  exists e', send ex m tok query = (m, Err e').
Proof.
  intros Hin Hq. unfold send.
  destruct (collect (map (from_query tok) query)) as [us|e'|] eqn:C.
  - exfalso. destruct (collect_Ok_In _ _ (from_query tok q) C) as [a Ha].
    + by apply in_map.
    + congruence.
  - eauto.
  - exfalso. revert C. apply collect_no_panic.
    intros x Hx. apply in_map_iff in Hx as [q' [<- _]]. apply from_query_never_panics.
Qed.

Lemma send_rejects_bad_pair_witness :
  exists e', send reliable ∅ "t" [("a", "5"); ("b", "x!y")] = (∅, Err e').
Proof.
  apply (send_rejects_bad_pair reliable ∅ "t" _ ("b", "x!y") InvalidNumber).
  - simpl. auto.
  - reflexivity.
Defined.

Lemma apply_updates_reliable m us :
  apply_updates reliable m us = (foldl (fun m u => fst (store_update reliable m u)) m us, Ok tt).
Proof.
  revert m. induction us as [|u us IH]; intros m; [done|]. simpl.
  rewrite store_update_reliable. simpl. by rewrite IH.
Qed.

Lemma send_applies_all m tok query us :
  collect (map (from_query tok) query) = Ok us ->
  send reliable m tok query =
    (foldl (fun m u => fst (store_update reliable m u)) m us, Ok "OK").
Proof. intros C. unfold send. rewrite C, apply_updates_reliable. reflexivity. Qed.

(** When every pair parses and the store accepts every command, [send]
    answers ["OK"] after applying the updates one after the other, in the
    order of the query. *)
Theorem send_reliable m tok query us :
  collect (map (from_query tok) query) = Ok us ->
  send reliable m tok query =
    (foldl (fun m u => fst (store_update reliable m u)) m us, Ok "OK").
Proof. exact (send_applies_all m tok query us). Qed.

Lemma send_reliable_witness :
  send reliable ∅ "t" [("a", "1"); ("a", "2")] =
    (foldl (fun m u => fst (store_update reliable m u)) ∅
       [mkUpdate (mkKey "t" "a") None (Some (Some 1%Z)) None;
        mkUpdate (mkKey "t" "a") None (Some (Some 2%Z)) None], Ok "OK").
Proof. apply send_reliable. reflexivity. Defined.

(** A report sent through [send] reads back through [get_state]: the label
    it carries and, for [current] and [max], its value or (when the report
    leaves the field out) what was stored before. *)
Theorem send_read_back m tok q u :
  from_query tok q = Ok u ->
  get_state (redis_of (fst (send reliable m tok [q]))) (ukey u) =
    let! c := read_after (redis_of m) (ukey u) "current" (current u) in
    let! x := read_after (redis_of m) (ukey u) "max" (max u) in
    Ok (mkValue (state u) c x).
Proof.
  intros Hq. destruct (from_query_update_wf tok q u Hq) as [_ [Rs [Rc Rx]]].
  rewrite (send_applies_all m tok [q] [u]) by (simpl; rewrite Hq; reflexivity).
  simpl. apply store_update_get_state; [|done|done].
  intros l El. by apply check_utf8, Rs.
Qed.

Lemma send_read_back_witness :
  from_query "t" ("a", "done!7") = Ok (mkUpdate (mkKey "t" "a") (Some "done") (Some (Some 7%Z)) None) /\
  get_state (redis_of (fst (send reliable {[ "pcafe:t:a:max" := ("50", 3%Z) ]} "t" [("a", "done!7")])))
    (mkKey "t" "a") = Ok (mkValue (Some "done") (Some 7%Z) (Some 50%Z)).
Proof.
  split; [reflexivity|].
  refine (eq_trans (send_read_back _ "t" ("a", "done!7")
    (mkUpdate (mkKey "t" "a") (Some "done") (Some (Some 7%Z)) None) eq_refl) _).
  reflexivity.
Defined.

(** ** Decoded keys *)

Lemma collect_map_check_inv l v :
  collect (map check_string l) = Ok v ->
  v = l /\ Forall (fun s => str_all check_char s = true) l.
Proof.
  revert v. induction l as [|s l IH]; simpl; intros v H.
  - by injection H as <-.
  - destruct (check_string s) as [s'| |] eqn:Cs; simpl in H; try discriminate.
    apply check_string_ok in Cs as [-> Cs].
    destruct (collect (map check_string l)) as [r| |]; simpl in H; try discriminate.
    injection H as <-. destruct (IH r eq_refl) as [-> Hl]. auto.
Qed.

Lemma str_all_app p a b : str_all p (a ++ b) = str_all p a && str_all p b.
Proof.
  induction a as [|c a IH]; [done|]. rewrite append_cons. simpl.
  by rewrite IH, andb_assoc.
Qed.

Lemma str_all_join_colon l :
  Forall (fun s => str_all check_char s = true) l ->
  str_all (fun c => check_char c || Ascii.eqb c colon) (join ":" l) = true.
Proof.
  assert (W : forall s, str_all check_char s = true ->
            str_all (fun c => check_char c || Ascii.eqb c colon) s = true).
  { induction s as [|c s IH]; simpl; [done|]. intros H.
    apply andb_prop in H as [-> H]. simpl. auto. }
  induction 1 as [|s l Hs Hl IH]; [done|]. simpl.
  destruct l as [|s' l]; [auto|].
  rewrite !str_all_app, W, IH by done. reflexivity.
Qed.

(** A key [Key::from_redis_key] decodes has a token of the allowed
    characters and a task name of the allowed characters and colons: no
    decoded key carries a character that HTML gives a meaning to. *)
Theorem from_redis_key_charset raw k :
  from_redis_key raw = Ok k ->
  str_all check_char (token k) = true /\
  str_all (fun c => check_char c || Ascii.eqb c colon) (key k) = true.
Proof.
  unfold from_redis_key. intros H.
  destruct (collect (map check_string (split_colon raw))) as [v| |] eqn:C;
    simpl in H; try discriminate.
  apply collect_map_check_inv in C as [-> Hv].
  destruct (index (split_colon raw) 0) as [v0| |]; simpl in H; try discriminate.
  destruct (index (split_colon raw) 1) as [v1| |] eqn:N1; simpl in H; try discriminate.
  destruct (slice (split_colon raw) 2 _) as [mid| |] eqn:Sl; simpl in H; try discriminate.
  destruct (String.eqb v0 "pcafe"); try discriminate.
  injection H as <-. simpl. split.
  - unfold index in N1. case_match; simplify_eq.
    match goal with E : nth_error _ 1 = Some _ |- _ => apply nth_error_In in E end.
    rewrite List.Forall_forall in Hv. auto.
  - unfold slice in Sl. case_match; simplify_eq.
    apply str_all_join_colon. apply Forall_take, Forall_drop, Hv.
Qed.

Lemma from_redis_key_charset_witness :
  from_redis_key "pcafe:t:a:b:state" = Ok (mkKey "t" "a:b") /\
  str_all check_char "t" = true /\
  str_all (fun c => check_char c || Ascii.eqb c colon) "a:b" = true.
Proof.
  split; [reflexivity|].
  exact (from_redis_key_charset "pcafe:t:a:b:state" (mkKey "t" "a:b") eq_refl).
Defined.

(** ** The [see] route *)

Lemma key_compare_antisym a b : key_compare a b = CompOpp (key_compare b a).
Proof.
  unfold key_compare. rewrite (String.compare_antisym (token a)).
  destruct (String.compare (token b) (token a)); simpl; try reflexivity.
  apply String.compare_antisym.
Qed.

Lemma insert_key_perm k l : insert_key k l ≡ₚ k :: l.
Proof.
  induction l as [|k' l IH]; simpl; [done|].
  destruct (key_compare k k'); try done.
  rewrite IH. constructor.
Qed.

Lemma sort_keys_permutes l : sort_keys l ≡ₚ l.
Proof.
  induction l as [|k l IH]; simpl; [done|].
  unfold sort_keys in *. simpl. by rewrite insert_key_perm, IH.
Qed.

(** [keys.sort()] keeps every key exactly once. *)
Theorem sort_keys_perm l : sort_keys l ≡ₚ l.
Proof. exact (sort_keys_permutes l). Qed.

Lemma insert_key_sorted k l :
  Sorted (fun a b => key_compare a b <> Gt) l ->
  Sorted (fun a b => key_compare a b <> Gt) (insert_key k l).
Proof.
  induction 1 as [|k' l Hl IH Hhd]; simpl.
  - repeat constructor.
  - destruct (key_compare k k') eqn:E.
    + constructor; [by constructor|]. constructor. congruence.
    + constructor; [by constructor|]. constructor. congruence.
    + constructor; [exact IH|].
      destruct l as [|k'' l]; simpl.
      * constructor. rewrite key_compare_antisym, E. discriminate.
      * inversion Hhd as [|? ? Hk'']; subst.
        destruct (key_compare k k''); constructor;
          first [done | rewrite key_compare_antisym, E; discriminate].
Qed.

(** [keys.sort()] orders the keys as the derived [Ord] of [Key] does:
    by token, then by task name, byte-wise. *)
Theorem sort_keys_sorted l : Sorted (fun a b => key_compare a b <> Gt) (sort_keys l).
Proof.
  induction l as [|k l IH]; simpl; [constructor|].
  by apply insert_key_sorted.
Qed.

Lemma get_state_no_panic r k : get_state r k <> Panic.
Proof.
  unfold get_state, get_param_str, get_param_int.
  destruct (redis_key_fields k) as [Hs [Hc Hm]]. rewrite Hs, Hc, Hm. simpl.
  unfold bind. repeat case_match; discriminate.
Qed.

(** One task whose fields cannot be read (a transport failure, or a
    [current] or [max] that is not an integer) makes the whole [see] page
    fail: the lines are collected into one [Result]. *)
Theorem see_fails_on_unreadable_task sc r tok S k e :
  get_all_keys sc tok "" = Ok S -> k ∈ S -> get_state r k = Err e ->
  exists e', see sc r tok = Err e'.
Proof.
  intros HS Hk He. unfold see. rewrite HS. simpl.
  set (f := fun k => let! st := get_state r k in Ok (render_line k st)).
  destruct (collect (map f (sort_keys (elements S)))) as [ls|e'|] eqn:C; simpl.
  - exfalso. destruct (collect_Ok_In _ _ (f k) C) as [a Ha].
    + apply in_map. apply list_elem_of_In.
      rewrite sort_keys_permutes. by apply elem_of_elements.
    + unfold f in Ha. rewrite He in Ha. discriminate.
  - eauto.
  - exfalso. revert C. apply collect_no_panic.
    intros x Hx. apply in_map_iff in Hx as [k' [<- _]]. unfold f.
    pose proof (get_state_no_panic r k').
    destruct (get_state r k'); simpl; congruence.
Qed.

Lemma see_fails_on_unreadable_task_witness :
  exists e', see scan_one_task (fun _ => None) "tok" = Err e'.
Proof.
  apply (see_fails_on_unreadable_task scan_one_task (fun _ => None) "tok"
           (list_to_set [mkKey "tok" "a:b"]) (mkKey "tok" "a:b") StoreError).
  - reflexivity.
  - set_solver.
  - reflexivity.
Defined.

Lemma filter_decoded_all_err raws :
  Forall (fun raw => exists e, from_redis_key raw = Err e) raws -> filter_decoded raws = Ok [].
Proof.
  induction 1 as [|raw raws [e He] _ IH]; simpl; [done|]. by rewrite He.
Qed.

(** When no key the scan returns decodes (so also when the token has no
    task at all), the [see] page is empty. *)
Theorem see_no_decodable_keys sc r tok raws :
  str_all check_char tok = true ->
  sc (redis_key_pattern (mkKey tok "")) = Some raws ->
  Forall (fun raw => exists e, from_redis_key raw = Err e) raws ->
  see sc r tok = Ok "".
Proof.
  intros Ht Hsc Hr. unfold see, get_all_keys, key_try_from, check_string.
  rewrite Ht. simpl. rewrite Hsc, filter_decoded_all_err by done. reflexivity.
Qed.

Lemma see_no_decodable_keys_witness :
  see (fun _ => Some ["pcafe:tok:x y:state"; "cafe:tok:a:state"]) (fun _ => None) "tok" = Ok "".
Proof.
  apply (see_no_decodable_keys _ _ _ ["pcafe:tok:x y:state"; "cafe:tok:a:state"]).
  - reflexivity.
  - reflexivity.
  - repeat constructor; eexists; reflexivity.
Defined.

(** The request-level errors of [see]: a token outside the allowed
    characters is refused before any read, and a failed scan fails the page. *)
Theorem see_request_errors sc r tok :
  (str_all check_char tok = false -> see sc r tok = Err InvalidCharset) /\
  (str_all check_char tok = true -> sc (redis_key_pattern (mkKey tok "")) = None ->
   see sc r tok = Err StoreError).
Proof.
  unfold see, get_all_keys, key_try_from, check_string. split.
  - intros Ht. by rewrite Ht.
  - intros Ht Hsc. rewrite Ht. simpl. by rewrite Hsc.
Qed.

Lemma see_request_errors_witness :
  see scan_one_task (fun _ => None) "a b" = Err InvalidCharset /\
  see (fun _ => None) (fun _ => None) "tok" = Err StoreError.
Proof.
  split.
  - apply (see_request_errors scan_one_task (fun _ => None) "a b"). reflexivity.
  - apply (see_request_errors (fun _ => None) (fun _ => None) "tok"); reflexivity.
Defined.

Lemma parse_i64_to_string_witness :
  parse_i64 (i64_to_string (-9223372036854775808)%Z) = Some (-9223372036854775808)%Z /\
  parse_i64 (i64_to_string 120%Z) = Some 120%Z.
Proof.
  split; apply parse_i64_to_string; unfold i64_min, i64_max; lia.
Defined.

(** ** Listing after an update *)

Lemma glob_star s : glob "*" s = true.
Proof. induction s as [|c s IH]; [done|]. exact IH. Qed.

Lemma glob_literal_cons c p s :
  literal_char c = true ->
  glob (String c p) s =
    match s with EmptyString => false | String c' s' => Ascii.eqb c c' && glob p s' end.
Proof.
  unfold literal_char. intros Hc.
  destruct c as [[] [] [] [] [] [] [] []]; try discriminate; reflexivity.
Qed.

Lemma glob_literal w p s :
  str_all literal_char w = true -> glob (w ++ p) (w ++ s) = glob p s.
Proof.
  induction w as [|c w IH]; intros H; [done|].
  rewrite !append_cons. simpl in H. apply andb_prop in H as [Hc Hw].
  rewrite glob_literal_cons by done. rewrite Ascii.eqb_refl. simpl. auto.
Qed.

Lemma glob_literal_inv w s :
  str_all literal_char w = true -> glob (w ++ "*") s = true -> exists rest, s = w ++ rest.
Proof.
  revert s. induction w as [|c w IH]; intros s H G; [by exists s|].
  simpl in H. apply andb_prop in H as [Hc Hw].
  rewrite append_cons, glob_literal_cons in G by done.
  destruct s as [|c' s]; [discriminate|].
  apply andb_prop in G as [E G]. apply Ascii.eqb_eq in E as <-.
  destruct (IH s Hw G) as [rest ->]. exists rest. by rewrite append_cons.
Qed.

Lemma check_literal s : str_all check_char s = true -> str_all literal_char s = true.
Proof.
  induction s as [|c s IH]; simpl; [done|]. intros H.
  apply andb_prop in H as [Hc Hs]. rewrite IH by done.
  unfold literal_char.
  destruct (Ascii.eqb c "*") eqn:E1; [apply Ascii.eqb_eq in E1; subst; discriminate|].
  destruct (Ascii.eqb c "?") eqn:E2; [apply Ascii.eqb_eq in E2; subst; discriminate|].
  reflexivity.
Qed.

Lemma append_assoc_str a b c : (a ++ b) ++ c = a ++ b ++ c.
Proof. induction a as [|x a IH]; [done|]. by rewrite !append_cons, IH. Qed.

Lemma scan_pattern_prefix (m : RStore) tok :
  str_all check_char tok = true ->
  Forall (fun raw => exists rest, raw = "pcafe:" ++ tok ++ ":" ++ rest)
    (List.filter (glob (redis_key_pattern (mkKey tok ""))) (elements (dom m))).
Proof.
  intros Ht. apply Forall_forall. intros raw Hin.
  apply list_elem_of_In, filter_In in Hin as [_ G].
  unfold redis_key_pattern in G. cbn [token key] in G.
  replace ("pcafe:" ++ tok ++ ":" ++ "" ++ "*") with (("pcafe:" ++ tok ++ ":") ++ "*") in G
    by by rewrite !append_assoc_str.
  apply glob_literal_inv in G as [rest ->].
  - exists rest. by rewrite !append_assoc_str.
  - rewrite !str_all_app, (check_literal tok) by done. reflexivity.
Qed.

Lemma str_all_impl (p q : ascii -> bool) s :
  (forall c, p c = true -> q c = true) -> str_all p s = true -> str_all q s = true.
Proof.
  intros Hpq. induction s as [|c s IH]; simpl; [done|]. intros H.
  apply andb_prop in H as [Hc H]. by rewrite Hpq, IH.
Qed.

Lemma field_key_utf8 k p :
  str_all check_char (token k) = true ->
  Forall (fun seg => str_all check_char seg = true) (split_colon (key k)) ->
  str_all check_char p = true ->
  utf8_valid (field_key k p) = true.
Proof.
  intros Ht Hk Hp. apply ascii_utf8. unfold field_key.
  assert (Hkey : str_all (fun c => check_char c || Ascii.eqb c colon) (key k) = true).
  { rewrite <- (join_split (key k)). by apply str_all_join_colon. }
  assert (Hkc : forall c, check_char c || Ascii.eqb c colon = true ->
                 Nat.ltb (nat_of_ascii c) 128 = true).
  { intros c Hc. apply orb_prop in Hc as [Hc|Hc]; [by apply check_char_ascii|].
    apply Ascii.eqb_eq in Hc as ->. reflexivity. }
  set (q := fun c => Nat.ltb (nat_of_ascii c) 128).
  rewrite !str_all_app.
  rewrite (str_all_impl _ q (token k) check_char_ascii Ht),
    (str_all_impl _ q p check_char_ascii Hp), (str_all_impl _ q (key k) Hkc Hkey).
  reflexivity.
Qed.

(** A report that carries a label makes its task show up in the listing
    of its token, whatever the keyspace held before, provided the task
    name decodes back (each of its colon-separated segments passes
    [check_string]) and the keys already stored under the token's prefix
    are valid UTF-8, as the [String] conversion of the scan requires. *)
Theorem labelled_update_listed m u s :
  state u = Some s ->
  str_all check_char (token (ukey u)) = true ->
  Forall (fun seg => str_all check_char seg = true) (split_colon (key (ukey u))) ->
  (forall x, x ∈ dom m -> glob (redis_key_pattern (mkKey (token (ukey u)) "")) x = true ->
     utf8_valid x = true) ->
  exists S, get_all_keys (scan_of (fst (store_update reliable m u))) (token (ukey u)) "" = Ok S /\
    ukey u ∈ S.
Proof.
  intros Hs Ht Hk Hu.
  set (m' := fst (store_update reliable m u)).
  set (raws := List.filter (glob (redis_key_pattern (mkKey (token (ukey u)) "")))
                 (elements (dom m'))).
  assert (Hpre := scan_pattern_prefix m' (token (ukey u)) Ht). fold raws in Hpre.
  assert (Hnp : Forall (fun raw => from_redis_key raw <> Panic) raws).
  { eapply Forall_impl; [exact Hpre|]. intros raw [rest ->].
    apply from_redis_key_no_panic, split_colon_prefixed, check_nocolon, Ht. }
  assert (Hutf : forallb utf8_valid raws = true).
  { apply forallb_forall. intros raw Hr.
    apply filter_In in Hr as [Hd Hg].
    apply list_elem_of_In, elem_of_elements, elem_of_dom in Hd.
    destruct (store_update_fields m u) as [_ [_ [_ [_ Eo]]]]. simpl in Eo.
    destruct (decide (raw = field_key (ukey u) "state")) as [->|N1];
      [by apply field_key_utf8|].
    destruct (decide (raw = field_key (ukey u) "current")) as [->|N2];
      [by apply field_key_utf8|].
    destruct (decide (raw = field_key (ukey u) "max")) as [->|N3];
      [by apply field_key_utf8|].
    apply Hu; [|done]. apply elem_of_dom. unfold m' in Hd. by rewrite <- Eo. }
  destruct (filter_decoded_spec raws Hnp) as [ks [Hks Hin]].
  exists (list_to_set ks). split.
  - unfold get_all_keys. rewrite key_try_from_ok by done. cbn [bind].
    change (scan_of m' (redis_key_pattern (mkKey (token (ukey u)) "")))
      with (if forallb utf8_valid raws then Some raws else None).
    rewrite Hutf. cbv beta iota. rewrite Hks. reflexivity.
  - apply elem_of_list_to_set, list_elem_of_In, Hin.
    exists (field_key (ukey u) "state"). split.
    + apply filter_In. split.
      * apply list_elem_of_In, elem_of_elements, elem_of_dom.
        destruct (store_update_fields m u) as [_ [Es _]]. simpl in Es.
        unfold m'. rewrite Es, Hs. by eexists.
      * unfold redis_key_pattern, field_key. cbn [token key].
        replace ("pcafe:" ++ token (ukey u) ++ ":" ++ "" ++ "*") with
          (("pcafe:" ++ token (ukey u) ++ ":") ++ "*") by by rewrite !append_assoc_str.
        replace ("pcafe:" ++ token (ukey u) ++ ":" ++ key (ukey u) ++ ":" ++ "state") with
          (("pcafe:" ++ token (ukey u) ++ ":") ++ key (ukey u) ++ ":" ++ "state")
          by by rewrite !append_assoc_str.
        rewrite glob_literal; [apply glob_star|].
        rewrite !str_all_app, (check_literal (token _)) by done. reflexivity.
    + unfold field_key.
      pose proof (split_field_key (token (ukey u)) (key (ukey u)) "state"
                    (check_nocolon _ Ht) eq_refl) as Hsp.
      rewrite (from_redis_key_segments _ _ _ _ _ Hsp).
      * simpl. rewrite join_split. by destruct (ukey u).
      * rewrite Hsp. constructor; [done|]. constructor; [done|].
        apply Forall_app. split; [done|]. by constructor.
Qed.

Lemma labelled_update_listed_witness :
  exists S, get_all_keys (scan_of (fst (store_update reliable ∅
      (mkUpdate (mkKey "t" "a:b") (Some "go") None None)))) "t" "" = Ok S /\
    mkKey "t" "a:b" ∈ S.
Proof.
  apply (labelled_update_listed ∅ (mkUpdate (mkKey "t" "a:b") (Some "go") None None) "go").
  - reflexivity.
  - reflexivity.
  - simpl. repeat constructor.
  - intros x Hx. set_solver.
Defined.

(** ** Failures of the store *)

Lemma run_cmds_app ex m cs1 cs2 :
  run_cmds ex m (cs1 ++ cs2) =
    match run_cmds ex m cs1 with
    | (m1, Ok _) => run_cmds ex m1 cs2
    | r => r
    end.
Proof.
  revert m. induction cs1 as [|c cs1 IH]; intros m; simpl; [done|].
  destruct (ex m c); [apply IH|done].
Qed.

(** [Store::update] is not atomic: when the store refuses a command, the
    commands before it stay applied, the ones after it are not sent, and
    the update fails with the store's error. *)
Theorem store_update_not_atomic ex m u cs1 c cs2 m1 :
  as_cmds u = Ok (cs1 ++ c :: cs2)%list ->
  run_cmds ex m cs1 = (m1, Ok tt) -> ex m1 c = None ->
  store_update ex m u = (m1, Err StoreError).
Proof.
  intros Hc H1 Hx. unfold store_update. rewrite Hc, run_cmds_app, H1. simpl.
  by rewrite Hx.
Qed.

Lemma store_update_not_atomic_witness :
  let ex : Exec := fun m c => match c with Del _ => None | _ => Some (exec_cmd m c) end in
  store_update ex ∅ (mkUpdate (mkKey "t" "a") (Some "go") (Some None) None) =
    ({[ "pcafe:t:a:state" := ("go", EXPIRE_SECONDS) ]}, Err StoreError).
Proof.
  intros ex.
  apply (store_update_not_atomic ex ∅ _ [SetEx "pcafe:t:a:state" (ArgStr "go") EXPIRE_SECONDS]
           (Del "pcafe:t:a:current") []); reflexivity.
Defined.

Lemma apply_updates_app ex m us1 us2 :
  apply_updates ex m (us1 ++ us2) =
    match apply_updates ex m us1 with
    | (m1, Ok _) => apply_updates ex m1 us2
    | r => r
    end.
Proof.
  revert m. induction us1 as [|u us1 IH]; intros m; simpl; [done|].
  destruct (store_update ex m u) as [m' [[]|e|]]; [apply IH|done|done].
Qed.

(** Nor is [send]: when the store fails during one update of the query,
    the updates before it stay applied, the ones after it are dropped, and
    the request fails with that error. *)
Theorem send_not_atomic ex m tok query us1 u us2 m1 m2 e :
  collect (map (from_query tok) query) = Ok (us1 ++ u :: us2)%list ->
  apply_updates ex m us1 = (m1, Ok tt) ->
  store_update ex m1 u = (m2, Err e) ->
  send ex m tok query = (m2, Err e).
Proof.
  intros Hq H1 H2. unfold send. rewrite Hq, apply_updates_app, H1. simpl.
  by rewrite H2.
Qed.

Lemma send_not_atomic_witness :
  let ex : Exec := fun m c => match c with Del _ => None | _ => Some (exec_cmd m c) end in
  send ex ∅ "t" [("a", "go!"); ("b", "null")] =
    ({[ "pcafe:t:a:state" := ("go", EXPIRE_SECONDS) ]}, Err StoreError).
Proof.
  intros ex.
  apply (send_not_atomic ex ∅ "t" _ [mkUpdate (mkKey "t" "a") (Some "go") None None]
           (mkUpdate (mkKey "t" "b") None (Some None) None) []
           {[ "pcafe:t:a:state" := ("go", EXPIRE_SECONDS) ]});
    reflexivity.
Defined.
